(** * PNS attack simulator (pns_attacks.py): a shallow embedding

    The Python class [PNSAttackSimulator] keeps six parallel history lists
    and mutates them in place.  [send_bit] appends to them, drawing from the
    module-level random generator; [eve_delayed_measurement] patches Eve's
    two lists by index.  Both are embedded as computations in a small
    state-and-exception monad whose state is the object together with the
    generator.  A raised exception keeps the mutations done so far, as it
    does in Python. *)

From Stdlib Require Import ZArith QArith String Bool Lia.
From Stdlib Require Import Floats.
From Stdlib Require Uint63.
From stdpp Require Import base list.

Open Scope string_scope.
Open Scope list_scope.
Open Scope Z_scope.

(** A decimal such as [0.7] denotes the nearest double, as it does in
    Python. *)
#[global] Set Warnings "-inexact-float".

(** ** The object *)

(** [self.*] of [PNSAttackSimulator].  [None] entries are Python's [None];
    the float [mean_photon_number] is kept as a rational. *)
Record PNSAttackSimulator := mkSim {
  mean_photon_number : Q;
  eve_intercept : bool;
  alice_bits : list Z;
  alice_bases : list string;
  bob_bits : list (option Z);
  bob_bases : list string;
  eve_bits : list (option Z);
  eve_bases : list (option string)
}.

(** [__init__] *)
Definition init (mean : Q) (intercept : bool) : PNSAttackSimulator :=
  {| mean_photon_number := mean; eve_intercept := intercept;
     alice_bits := []; alice_bases := [];
     bob_bits := []; bob_bases := [];
     eve_bits := []; eve_bases := [] |}.

(** ** The random generator

    The generator is a stream of raw words read through a cursor, one word
    per call.  [random()] builds a double in [0,1) from 53 bits of a word;
    [_randbelow n] is taken as a word reduced modulo [n].  The doubles of
    the sampler are binary64 floats with their rounding; only the stored
    [mean_photon_number], which nothing reads, is kept as a rational.  A
    property proved for every [Random] holds for every sequence of draws. *)
Record Random := mkRandom { words : nat -> N; cursor : nat }.

Definition tape (l : list N) : Random :=
  {| words := fun n => nth n l 0%N; cursor := 0 |}.

Record World := mkWorld { self : PNSAttackSimulator; gen : Random }.

(** ** The monad *)

Inductive exn := IndexError | ValueError.

Inductive outcome (A : Type) :=
| Return (a : A)
| Raise (e : exn).
Arguments Return {A} a.
Arguments Raise {A} e.

Definition M (A : Type) : Type := World -> outcome A * World.

Definition ret {A} (a : A) : M A := fun w => (Return a, w).

Definition raise {A} (e : exn) : M A := fun w => (Raise e, w).

Definition bind {A B} (m : M A) (f : A -> M B) : M B :=
  fun w => match m w with
           | (Return a, w') => f a w'
           | (Raise e, w') => (Raise e, w')
           end.

Declare Scope py_scope.
Delimit Scope py_scope with py.
Notation "x <- c1 ;; c2" := (bind c1 (fun x => c2))
  (at level 100, c1 at next level, right associativity) : py_scope.
Notation "c1 ;; c2" := (bind c1 (fun _ => c2))
  (at level 100, right associativity) : py_scope.
Open Scope py_scope.

Definition gets {A} (f : PNSAttackSimulator -> A) : M A :=
  fun w => (Return (f (self w)), w).

Definition modify (f : PNSAttackSimulator -> PNSAttackSimulator) : M unit :=
  fun w => (Return tt, {| self := f (self w); gen := gen w |}).

Definition next_word : M N :=
  fun w => (Return (words (gen w) (cursor (gen w))),
            {| self := self w;
               gen := {| words := words (gen w); cursor := S (cursor (gen w)) |} |}).

(** [for x in xs: body(x)] *)
Fixpoint for_each {A} (xs : list A) (body : A -> M unit) : M unit :=
  match xs with
  | [] => ret tt
  | x :: xs' => body x ;; for_each xs' body
  end.

(** [seq[i]] for a non-negative index. *)
Definition getitem {A} (l : list A) (i : nat) : M A :=
  match l !! i with
  | Some x => ret x
  | None => raise IndexError
  end.

(** ** Field updates *)

Definition with_alice_bits (f : list Z -> list Z) (s : PNSAttackSimulator) :=
  mkSim (mean_photon_number s) (eve_intercept s) (f (alice_bits s)) (alice_bases s)
        (bob_bits s) (bob_bases s) (eve_bits s) (eve_bases s).
Definition with_alice_bases (f : list string -> list string) (s : PNSAttackSimulator) :=
  mkSim (mean_photon_number s) (eve_intercept s) (alice_bits s) (f (alice_bases s))
        (bob_bits s) (bob_bases s) (eve_bits s) (eve_bases s).
Definition with_bob_bits (f : list (option Z) -> list (option Z)) (s : PNSAttackSimulator) :=
  mkSim (mean_photon_number s) (eve_intercept s) (alice_bits s) (alice_bases s)
        (f (bob_bits s)) (bob_bases s) (eve_bits s) (eve_bases s).
Definition with_bob_bases (f : list string -> list string) (s : PNSAttackSimulator) :=
  mkSim (mean_photon_number s) (eve_intercept s) (alice_bits s) (alice_bases s)
        (bob_bits s) (f (bob_bases s)) (eve_bits s) (eve_bases s).
Definition with_eve_bits (f : list (option Z) -> list (option Z)) (s : PNSAttackSimulator) :=
  mkSim (mean_photon_number s) (eve_intercept s) (alice_bits s) (alice_bases s)
        (bob_bits s) (bob_bases s) (f (eve_bits s)) (eve_bases s).
Definition with_eve_bases
  (f : list (option string) -> list (option string)) (s : PNSAttackSimulator) :=
  mkSim (mean_photon_number s) (eve_intercept s) (alice_bits s) (alice_bases s)
        (bob_bits s) (bob_bases s) (eve_bits s) (f (eve_bases s)).

(** [l.append(x)] *)
Definition append {A} (x : A) (l : list A) : list A := l ++ [x].

(** [self.eve_bases[i] = x]: an index out of range raises. *)
Definition setitem_eve_bases (i : nat) (x : option string) : M unit :=
  l <- gets eve_bases ;;
  if (i <? length l)%nat then modify (with_eve_bases <[i := x]>)
  else raise IndexError.

Definition setitem_eve_bits (i : nat) (x : option Z) : M unit :=
  l <- gets eve_bits ;;
  if (i <? length l)%nat then modify (with_eve_bits <[i := x]>)
  else raise IndexError.

(** ** The [random] module *)

(** [random.random()]: a 53-bit integer times [2 ** -53]. *)
Definition random_random : M float :=
  w <- next_word ;;
  ret (PrimFloat.of_uint63 (Uint63.of_Z (Z.of_N (w mod 2 ^ 53)))
       * (1 / 9007199254740992))%float.

(** [Random._randbelow(n)] *)
Definition randbelow (n : nat) : M nat :=
  w <- next_word ;;
  ret (N.to_nat (w mod N.of_nat n)).

(** [random.choice(seq)] *)
Definition random_choice {A} (seq : list A) : M A :=
  match seq with
  | [] => raise IndexError
  | _ => i <- randbelow (length seq) ;; getitem seq i
  end.

(** [itertools.accumulate(weights)] *)
Fixpoint accumulate_from (acc : float) (ws : list float) : list float :=
  match ws with
  | [] => []
  | x :: ws' => (acc + x)%float :: accumulate_from (acc + x)%float ws'
  end.

Definition accumulate (ws : list float) : list float :=
  match ws with
  | [] => []
  | x :: ws' => x :: accumulate_from x ws'
  end.

(** [bisect.bisect(a, x, 0, hi)] on a sorted list: the number of leading
    entries [y] among the first [hi] for which [x < y] is false. *)
Fixpoint bisect (a : list float) (x : float) (hi : nat) : nat :=
  match hi, a with
  | S hi', y :: a' => if PrimFloat.ltb x y then 0%nat else S (bisect a' x hi')
  | _, _ => 0%nat
  end.

(** [random.choices(population, weights=weights)], with [k = 1]. *)
Definition random_choices {A} (population : list A) (weights : list float)
  : M (list A) :=
  let n := length population in
  let cum_weights := accumulate weights in
  if negb (length cum_weights =? n)%nat then raise ValueError else
  match last cum_weights with
  | None => raise IndexError
  | Some last_weight =>
      let total := (last_weight + 0)%float in
      if PrimFloat.leb total 0 then raise ValueError else
      if negb (PrimFloat.is_finite total) then raise ValueError else
      u <- random_random ;;
      x <- getitem population (bisect cum_weights (u * total)%float (n - 1)) ;;
      ret [x]
  end.

(** ** The simulator's methods *)

Definition generate_photon_number : M Z :=
  r <- random_choices [0; 1; 2] [0.7; 0.25; 0.05]%float ;;
  getitem r 0.

Definition send_bit (alice_bit : Z) (alice_basis bob_basis : string) : M unit :=
  photon_num <- generate_photon_number ;;
  modify (with_alice_bits (append alice_bit)) ;;
  modify (with_alice_bases (append alice_basis)) ;;
  modify (with_bob_bases (append bob_basis)) ;;
  if photon_num =? 0 then
    modify (with_bob_bits (append None)) ;;
    intercept <- gets eve_intercept ;;
    if intercept then modify (with_eve_bits (append None)) else ret tt
  else
    intercept <- gets eve_intercept ;;
    if intercept && (1 <? photon_num) then
      modify (with_eve_bits (append None)) ;;
      modify (with_eve_bases (append None)) ;;
      if String.eqb alice_basis bob_basis then
        modify (with_bob_bits (append (Some alice_bit)))
      else
        b <- random_choice [0; 1] ;;
        modify (with_bob_bits (append (Some b)))
    else
      intercept <- gets eve_intercept ;;
      if intercept then
        eve_basis <- random_choice ["Z"; "X"] ;;
        modify (with_eve_bases (append (Some eve_basis))) ;;
        eve_bit <- (if String.eqb eve_basis alice_basis then ret alice_bit
                    else random_choice [0; 1]) ;;
        modify (with_eve_bits (append (Some eve_bit))) ;;
        if String.eqb bob_basis eve_basis then
          modify (with_bob_bits (append (Some eve_bit)))
        else
          b <- random_choice [0; 1] ;;
          modify (with_bob_bits (append (Some b)))
      else
        modify (with_eve_bits (append None)) ;;
        modify (with_eve_bases (append None)) ;;
        if String.eqb alice_basis bob_basis then
          modify (with_bob_bits (append (Some alice_bit)))
        else
          b <- random_choice [0; 1] ;;
          modify (with_bob_bits (append (Some b))).

(** The body of the loop of [eve_delayed_measurement], at index [i].  The
    test [a is None and b is None] does not evaluate [b] when [a] is set. *)
Definition delayed_round (i : nat) : M unit :=
  bits <- gets eve_bits ;;
  eve_bit <- getitem bits i ;;
  match eve_bit with
  | Some _ => ret tt
  | None =>
      bases <- gets eve_bases ;;
      eve_basis <- getitem bases i ;;
      match eve_basis with
      | Some _ => ret tt
      | None =>
          a_bases <- gets alice_bases ;;
          alice_basis <- getitem a_bases i ;;
          setitem_eve_bases i (Some alice_basis) ;;
          a_bits <- gets alice_bits ;;
          alice_bit <- getitem a_bits i ;;
          setitem_eve_bits i (Some alice_bit)
      end
  end.

Definition eve_delayed_measurement : M unit :=
  n <- gets (fun s => length (eve_bits s)) ;;
  for_each (seq 0 n) delayed_round.

(** ** Runs *)

(** One round's inputs: Alice's bit, Alice's basis, Bob's basis. *)
Record round := mkRound { r_bit : Z; r_alice_basis : string; r_bob_basis : string }.

Definition send_round (r : round) : M unit :=
  send_bit (r_bit r) (r_alice_basis r) (r_bob_basis r).

(** The driver's loop: one [send_bit] per round. *)
Definition transmit_all (rounds : list round) : M unit :=
  for_each rounds send_round.

Definition start (mean : Q) (intercept : bool) (g : Random) : World :=
  {| self := init mean intercept; gen := g |}.

Definition exec {A} (m : M A) (w : World) : World := snd (m w).
Definition result {A} (m : M A) (w : World) : outcome A := fst (m w).

(** ** Derived notions

    What the proofs below speak of: the generator's next word and what the
    sampler makes of it, what one round appends, how histories grow, and the
    indices the resolver leaves alone. *)

(** The world after one word has been read. *)
Definition advance (w : World) : World :=
  {| self := self w;
     gen := {| words := words (gen w); cursor := S (cursor (gen w)) |} |}.

Definition current_word (w : World) : N := words (gen w) (cursor (gen w)).

(** The uniform variate [random()] makes of a raw word. *)
Definition uniform (x : N) : float :=
  (PrimFloat.of_uint63 (Uint63.of_Z (Z.of_N (x mod 2 ^ 53)))
   * (1 / 9007199254740992))%float.

(** The cumulative weights [random.choices] bisects, and their total, as
    the double additions make them. *)
Definition cum_single : float := (0.7 + 0.25)%float.
Definition cum_total : float := (0.7 + 0.25 + 0.05 + 0)%float.

(** The photon count the sampler makes of a raw word. *)
Definition photon_of (x : N) : Z :=
  let v := (uniform x * cum_total)%float in
  if PrimFloat.ltb v 0.7 then 0 else if PrimFloat.ltb v cum_single then 1 else 2.

(** Eve's basis in the intercept-resend branch: the draw that follows the
    photon-count draw. *)
Definition drawn_basis (w : World) : string :=
  if (current_word (advance w) mod 2 =? 0)%N then "Z" else "X".

(** What one [send_bit] appends to [bob_bits], [eve_bits] and [eve_bases],
    by branch. *)
Inductive appended (intercept : bool) (pc : Z) (drawn : string)
    (a : Z) (ab bb : string) :
    option Z -> list (option Z) -> list (option string) -> Prop :=
| app_vacuum :
    pc = 0 ->
    appended intercept pc drawn a ab bb
      None (if intercept then [None] else []) []
| app_split b :
    pc <> 0 -> intercept = true -> 1 < pc ->
    (ab = bb -> b = a) ->
    appended intercept pc drawn a ab bb (Some b) [None] [None]
| app_resend eve_bit b :
    pc <> 0 -> intercept = true -> pc <= 1 ->
    (drawn = ab -> eve_bit = a) ->
    (bb = drawn -> b = eve_bit) ->
    appended intercept pc drawn a ab bb (Some b) [Some eve_bit] [Some drawn]
| app_quiet b :
    pc <> 0 -> intercept = false ->
    (ab = bb -> b = a) ->
    appended intercept pc drawn a ab bb (Some b) [None] [None].

Arguments photon_of : simpl never.
Arguments current_word : simpl never.
Arguments random_choice : simpl never.

(** Every history list only grows: a run extends each list of the world it
    starts from, and leaves the configuration alone. *)
Record extends (s s' : PNSAttackSimulator) : Prop := {
  ext_mean : mean_photon_number s' = mean_photon_number s;
  ext_intercept : eve_intercept s' = eve_intercept s;
  ext_alice_bits : exists l, alice_bits s' = alice_bits s ++ l;
  ext_alice_bases : exists l, alice_bases s' = alice_bases s ++ l;
  ext_bob_bits : exists l, bob_bits s' = bob_bits s ++ l;
  ext_bob_bases : exists l, bob_bases s' = bob_bases s ++ l;
  ext_eve_bits : exists l, eve_bits s' = eve_bits s ++ l;
  ext_eve_bases : exists l, eve_bases s' = eve_bases s ++ l
}.

(** What holds of the lists after [n] rounds from a fresh object.  Alice's
    and Bob's four lists have one entry per round.  Eve's two lists do not:
    [eve_bits] has one entry per round only when Eve intercepts, and
    [eve_bases] can be shorter still. *)
Record history (n : nat) (s : PNSAttackSimulator) : Prop := {
  h_alice_bits : length (alice_bits s) = n;
  h_alice_bases : length (alice_bases s) = n;
  h_bob_bits : length (bob_bits s) = n;
  h_bob_bases : length (bob_bases s) = n;
  h_eve_bits : eve_intercept s = true -> length (eve_bits s) = n;
  h_eve_bits_le : (length (eve_bits s) <= n)%nat;
  h_eve_bases_le : (length (eve_bases s) <= length (eve_bits s))%nat;
  h_eve_quiet : eve_intercept s = false ->
                length (eve_bases s) = length (eve_bits s)
}.

(** The world in which round [i] of a run is sent. *)
Definition before (rounds : list round) (w : World) (i : nat) : World :=
  exec (transmit_all (take i rounds)) w.

(** The object after a run of rounds from a fresh one. *)
Definition run (mean : Q) (intercept : bool) (g : Random) (rounds : list round)
  : World :=
  exec (transmit_all rounds) (start mean intercept g).

(** Index [i] is settled when the loop body leaves it alone: Eve's bit is
    set, or it is [None] next to a basis that is set. *)
Definition settled (s : PNSAttackSimulator) (i : nat) : Prop :=
  match eve_bits s !! i with
  | Some (Some _) => True
  | Some None =>
      match eve_bases s !! i with
      | Some (Some _) => True
      | _ => False
      end
  | None => False
  end.

(** All six lists have one entry per round. *)
Record aligned (n : nat) (s : PNSAttackSimulator) : Prop := {
  al_history : history n s;
  al_eve_bits : length (eve_bits s) = n;
  al_eve_bases : length (eve_bases s) = n
}.

(** No round of the run drew a vacuum pulse. *)
Definition no_vacuum (rounds : list round) (w : World) : Prop :=
  forall i, (i < length rounds)%nat ->
    result generate_photon_number (before rounds w i) <> Return 0.

(** Index [i] is within all four lists the resolver reads. *)
Definition in_bounds (s : PNSAttackSimulator) (i : nat) : Prop :=
  (i < length (eve_bits s) /\ i < length (eve_bases s)
   /\ i < length (alice_bases s) /\ i < length (alice_bits s))%nat.

(** An entry [send_bit] may write for a bit: [None], Alice's bit, or a coin
    flip. *)
Definition sent_bit (a : Z) (o : option Z) : Prop :=
  o = None \/ o = Some a \/ o = Some 0 \/ o = Some 1.

(** An entry [send_bit] may write for Eve's basis. *)
Definition sent_basis (o : option string) : Prop :=
  o = None \/ o = Some "Z" \/ o = Some "X".

(** A bit, and a list entry that is a bit or [None]. *)
Definition is_bit (z : Z) : Prop := z = 0 \/ z = 1.

Definition bit_or_none (o : option Z) : Prop :=
  match o with
  | None => True
  | Some z => is_bit z
  end.

(** The number of vacuum rounds of a run that starts in [w]. *)
Fixpoint vacuum_count (rounds : list round) (w : World) : nat :=
  match rounds with
  | [] => 0
  | r :: rs =>
      (match result generate_photon_number w with
       | Return pc => if (pc =? 0)%Z then 1 else 0
       | Raise _ => 0
       end + vacuum_count rs (exec (send_round r) w))%nat
  end.

(** What the resolver may change between two states: entries of Eve's two
    lists, not their lengths, and nothing else. *)
Record eve_entries_only (s s' : PNSAttackSimulator) : Prop := {
  eo_mean : mean_photon_number s' = mean_photon_number s;
  eo_intercept : eve_intercept s' = eve_intercept s;
  eo_alice_bits : alice_bits s' = alice_bits s;
  eo_alice_bases : alice_bases s' = alice_bases s;
  eo_bob_bits : bob_bits s' = bob_bits s;
  eo_bob_bases : bob_bases s' = bob_bases s;
  eo_eve_bits : length (eve_bits s') = length (eve_bits s);
  eo_eve_bases : length (eve_bases s') = length (eve_bases s)
}.

(** Raw words whose photon counts are 0, 1 and 2. *)
Definition vacuum_word : N := 0.
Definition single_word : N := 3 * 2 ^ 51.
Definition multi_word : N := 2 ^ 53 - 1.

(** * Proofs *)

(** ** One step of the generator *)

Lemma next_word_run w : next_word w = (Return (current_word w), advance w).
Proof. reflexivity. Qed.

Lemma random_random_run w :
  random_random w = (Return (uniform (current_word w)), advance w).
Proof. reflexivity. Qed.

Lemma random_choice_pair {A} (x y : A) w :
  random_choice [x; y] w
  = (Return (if (current_word w mod 2 =? 0)%N then x else y), advance w).
Proof.
  unfold random_choice, randbelow, bind. rewrite next_word_run.
  unfold ret. cbn [length].
  change (N.of_nat 2) with 2%N.
  pose proof (N.mod_upper_bound (current_word w) 2 ltac:(discriminate)) as Hlt.
  destruct (current_word w mod 2)%N as [|p] eqn:E; [reflexivity|].
  assert (p = 1%positive) by lia. subst p. reflexivity.
Qed.

Lemma generate_photon_number_run w :
  generate_photon_number w = (Return (photon_of (current_word w)), advance w).
Proof.
  unfold generate_photon_number, random_choices, bind.
  cbn [accumulate accumulate_from length Nat.eqb negb last]. cbv zeta.
  change (PrimFloat.leb (0.7 + 0.25 + 0.05 + 0) 0) with false.
  change (PrimFloat.is_finite (0.7 + 0.25 + 0.05 + 0)) with true.
  cbv beta iota. cbn [negb].
  rewrite random_random_run. unfold photon_of, cum_total, cum_single.
  cbn [Nat.sub bisect].
  destruct (PrimFloat.ltb _ 0.7); [|destruct (PrimFloat.ltb _ (0.7 + 0.25))];
    reflexivity.
Qed.

Lemma photon_of_range x : photon_of x = 0 \/ photon_of x = 1 \/ photon_of x = 2.
Proof.
  unfold photon_of. cbv zeta.
  destruct (PrimFloat.ltb _ 0.7); [|destruct (PrimFloat.ltb _ cum_single)]; auto.
Qed.

(** ** One round *)

Lemma send_bit_run a ab bb w :
  exists x ebits ebases g',
    send_bit a ab bb w
    = (Return tt,
       {| self :=
            mkSim (mean_photon_number (self w)) (eve_intercept (self w))
                  (alice_bits (self w) ++ [a]) (alice_bases (self w) ++ [ab])
                  (bob_bits (self w) ++ [x]) (bob_bases (self w) ++ [bb])
                  (eve_bits (self w) ++ ebits) (eve_bases (self w) ++ ebases);
          gen := g' |})
    /\ appended (eve_intercept (self w)) (photon_of (current_word w))
                (drawn_basis w) a ab bb x ebits ebases.
Proof.
  unfold send_bit, bind. rewrite generate_photon_number_run.
  destruct w as [[m e abits abases bbits bbases ebits ebases] g].
  set (pc := photon_of _). set (d := drawn_basis _).
  cbn.
  destruct (pc =? 0) eqn:E0.
  { apply Z.eqb_eq in E0. destruct e; cbn.
    - exists None, [None], []. eexists. rewrite app_nil_r.
      split; [reflexivity|]. apply (app_vacuum true); assumption.
    - exists None, [], []. eexists. rewrite !app_nil_r.
      split; [reflexivity|]. apply (app_vacuum false); assumption. }
  apply Z.eqb_neq in E0. destruct e; cbn.
  - destruct (1 <? pc) eqn:E1; cbn.
    + apply Z.ltb_lt in E1.
      destruct (ab =? bb)%string eqn:Eb; cbn; [|rewrite random_choice_pair; cbn];
        do 4 eexists; (split; [reflexivity|]); apply app_split; auto;
        intros ->; rewrite String.eqb_refl in Eb; discriminate.
    + apply Z.ltb_ge in E1. rewrite random_choice_pair.
      change (if (current_word _ mod 2 =? 0)%N then "Z" else "X") with d.
      cbn.
      destruct (d =? ab)%string eqn:Ed; cbn; [|rewrite random_choice_pair; cbn];
        (destruct (bb =? d)%string eqn:Ebd; cbn; [|rewrite random_choice_pair; cbn]);
        do 4 eexists; (split; [reflexivity|]); apply app_resend; auto;
        try (intros ->; rewrite String.eqb_refl in *; discriminate).
  - destruct (ab =? bb)%string eqn:Eb; cbn; [|rewrite random_choice_pair; cbn];
      do 4 eexists; (split; [reflexivity|]); apply app_quiet; auto;
      intros ->; rewrite String.eqb_refl in Eb; discriminate.
Qed.

Lemma send_round_returns r w :
  send_round r w = (Return tt, exec (send_round r) w).
Proof.
  unfold exec, send_round.
  destruct (send_bit_run (r_bit r) (r_alice_basis r) (r_bob_basis r) w)
    as (x & eb & ebs & g' & -> & _).
  reflexivity.
Qed.

(** ** Runs of rounds *)

Lemma transmit_all_cons r rs w :
  transmit_all (r :: rs) w = transmit_all rs (exec (send_round r) w).
Proof.
  unfold transmit_all. cbn [for_each]. unfold bind.
  rewrite send_round_returns. reflexivity.
Qed.

Lemma transmit_all_app l1 l2 w :
  transmit_all (l1 ++ l2) w = transmit_all l2 (exec (transmit_all l1) w).
Proof.
  revert w. induction l1 as [|r l1 IH]; intros w.
  - reflexivity.
  - rewrite <- app_comm_cons, !transmit_all_cons.
    rewrite IH. unfold exec at 2 3. rewrite transmit_all_cons. reflexivity.
Qed.

Lemma transmit_all_returns rounds w :
  transmit_all rounds w = (Return tt, exec (transmit_all rounds) w).
Proof.
  revert w. induction rounds as [|r rs IH]; intros w.
  - reflexivity.
  - unfold exec. rewrite transmit_all_cons. rewrite IH. reflexivity.
Qed.

Lemma extends_refl s : extends s s.
Proof. split; try reflexivity; exists []; symmetry; apply app_nil_r. Qed.

Lemma extends_trans s1 s2 s3 : extends s1 s2 -> extends s2 s3 -> extends s1 s3.
Proof.
  intros [m1 i1 [a1 A1] [b1 B1] [c1 C1] [d1 D1] [e1 E1] [f1 F1]]
         [m2 i2 [a2 A2] [b2 B2] [c2 C2] [d2 D2] [e2 E2] [f2 F2]].
  split; try congruence.
  - exists (a1 ++ a2). rewrite A2, A1, app_assoc. reflexivity.
  - exists (b1 ++ b2). rewrite B2, B1, app_assoc. reflexivity.
  - exists (c1 ++ c2). rewrite C2, C1, app_assoc. reflexivity.
  - exists (d1 ++ d2). rewrite D2, D1, app_assoc. reflexivity.
  - exists (e1 ++ e2). rewrite E2, E1, app_assoc. reflexivity.
  - exists (f1 ++ f2). rewrite F2, F1, app_assoc. reflexivity.
Qed.

Lemma send_round_extends r w : extends (self w) (self (exec (send_round r) w)).
Proof.
  unfold exec, send_round.
  destruct (send_bit_run (r_bit r) (r_alice_basis r) (r_bob_basis r) w)
    as (x & eb & ebs & g' & -> & _).
  split; cbn; eauto.
Qed.

Lemma transmit_all_extends rounds w :
  extends (self w) (self (exec (transmit_all rounds) w)).
Proof.
  revert w. induction rounds as [|r rs IH]; intros w.
  - apply extends_refl.
  - unfold exec. rewrite transmit_all_cons.
    eapply extends_trans; [apply send_round_extends | apply IH].
Qed.

Lemma extends_lookup {A} (l l' : list A) i x :
  (exists t, l' = l ++ t) -> l !! i = Some x -> l' !! i = Some x.
Proof. intros [t ->] H. apply lookup_app_l_Some. exact H. Qed.

Lemma history_init mean e : history 0 (init mean e).
Proof. split; cbn; auto. Qed.

Lemma send_round_history n r w :
  history n (self w) -> history (S n) (self (exec (send_round r) w)).
Proof.
  intros [H1 H2 H3 H4 H5 H6 H7 H8].
  unfold exec, send_round.
  destruct (send_bit_run (r_bit r) (r_alice_basis r) (r_bob_basis r) w)
    as (x & eb & ebs & g' & -> & Happ).
  split; cbn; rewrite ?length_app; cbn; try lia.
  - intros He. rewrite He in Happ. specialize (H5 He).
    inversion Happ; subst; cbn; try lia; congruence.
  - inversion Happ; subst; cbn; try lia; destruct (eve_intercept _); cbn; lia.
  - inversion Happ; subst; cbn; try lia; destruct (eve_intercept _); cbn; lia.
  - intros He. rewrite He in Happ. specialize (H8 He).
    inversion Happ; subst; cbn; try lia; congruence.
Qed.

Lemma transmit_all_history rounds : forall n w,
  history n (self w) ->
  history (length rounds + n) (self (exec (transmit_all rounds) w)).
Proof.
  induction rounds as [|r rs IH]; intros n w H.
  - exact H.
  - unfold exec. rewrite transmit_all_cons.
    cbn [length]. replace (S (length rs) + n)%nat with (length rs + S n)%nat by lia.
    apply IH, send_round_history, H.
Qed.

Lemma run_history mean e g rounds :
  history (length rounds) (self (exec (transmit_all rounds) (start mean e g))).
Proof.
  rewrite <- (Nat.add_0_r (length rounds)).
  apply transmit_all_history, history_init.
Qed.

Lemma run_intercept mean e g rounds :
  eve_intercept (self (exec (transmit_all rounds) (start mean e g))) = e.
Proof.
  apply (ext_intercept _ _ (transmit_all_extends rounds (start mean e g))).
Qed.

(** Round [i] of a run from a fresh object: what it appended, and where the
    entries sit in the final lists. *)
Lemma round_entry mean e g rounds i r :
  rounds !! i = Some r ->
  let w := before rounds (start mean e g) i in
  let s := self (exec (transmit_all rounds) (start mean e g)) in
  exists x ebits ebases,
    appended e (photon_of (current_word w)) (drawn_basis w)
             (r_bit r) (r_alice_basis r) (r_bob_basis r) x ebits ebases
    /\ bob_bits s !! i = Some x
    /\ (e = true -> exists y, ebits = [y] /\ eve_bits s !! i = Some y).
Proof.
  intros Hr w s.
  assert (Hsplit : rounds = take i rounds ++ r :: drop (S i) rounds).
  { symmetry. apply take_drop_middle, Hr. }
  assert (Hi : (i < length rounds)%nat) by (eapply lookup_lt_Some; eauto).
  pose proof (run_history mean e g (take i rounds)) as Hh.
  rewrite length_take, Nat.min_l in Hh by lia. fold (before rounds (start mean e g) i) in Hh.
  fold w in Hh.
  pose proof (run_intercept mean e g (take i rounds)) as He. 
  fold (before rounds (start mean e g) i) in He. fold w in He.
  assert (Hs : s = self (exec (transmit_all (drop (S i) rounds))
                              (exec (send_round r) w))).
  { subst s. rewrite Hsplit at 1. unfold exec at 1.
    rewrite transmit_all_app, transmit_all_cons. reflexivity. }
  pose proof (transmit_all_extends (drop (S i) rounds) (exec (send_round r) w)) as Hext.
  rewrite <- Hs in Hext.
  revert Hext. unfold exec at 1, send_round.
  destruct (send_bit_run (r_bit r) (r_alice_basis r) (r_bob_basis r) w)
    as (x & eb & ebs & g' & -> & Happ).
  cbn [snd self]. intros Hext. rewrite He in Happ.
  exists x, eb, ebs. split; [exact Happ|]. split.
  - eapply extends_lookup; [apply (ext_bob_bits _ _ Hext)|]. cbn.
    rewrite lookup_app_r by (rewrite (h_bob_bits _ _ Hh); lia).
    rewrite (h_bob_bits _ _ Hh), Nat.sub_diag. reflexivity.
  - intros ->. 
    assert (exists y, eb = [y]) as [y ->].
    { inversion Happ; subst; eauto; discriminate. }
    exists y. split; [reflexivity|].
    eapply extends_lookup; [apply (ext_eve_bits _ _ Hext)|]. cbn.
    rewrite lookup_app_r by (rewrite (h_eve_bits _ _ Hh He); lia).
    rewrite (h_eve_bits _ _ Hh He), Nat.sub_diag. reflexivity.
Qed.

(** ** The resolver *)

(** The loop body at index [i], case by case. *)
Lemma delayed_round_run i w :
  delayed_round i w =
  match eve_bits (self w) !! i with
  | None => (Raise IndexError, w)
  | Some (Some _) => (Return tt, w)
  | Some None =>
      match eve_bases (self w) !! i with
      | None => (Raise IndexError, w)
      | Some (Some _) => (Return tt, w)
      | Some None =>
          match alice_bases (self w) !! i with
          | None => (Raise IndexError, w)
          | Some ab =>
              let s1 := with_eve_bases <[i := Some ab]> (self w) in
              match alice_bits (self w) !! i with
              | None => (Raise IndexError, {| self := s1; gen := gen w |})
              | Some a =>
                  (Return tt,
                   {| self := with_eve_bits <[i := Some a]> s1; gen := gen w |})
              end
          end
      end
  end.
Proof.
  unfold delayed_round, bind, gets, getitem.
  destruct (eve_bits (self w) !! i) as [[b|]|] eqn:E1; try reflexivity.
  cbn [ret]. destruct (eve_bases (self w) !! i) as [[d|]|] eqn:E2; try reflexivity.
  cbn [ret]. destruct (alice_bases (self w) !! i) as [ab|] eqn:E3; try reflexivity.
  cbn [ret]. unfold setitem_eve_bases, setitem_eve_bits, bind, gets.
  apply lookup_lt_Some in E1, E2.
  destruct (Nat.ltb_spec i (length (eve_bases (self w)))); [|lia].
  cbn -[Nat.ltb]. destruct (alice_bits (self w) !! i) as [a|] eqn:E4; try reflexivity.
  cbn -[Nat.ltb]. destruct (Nat.ltb_spec i (length (eve_bits (self w)))); [|lia].
  reflexivity.
Qed.

Lemma settled_run i w :
  settled (self w) i -> delayed_round i w = (Return tt, w).
Proof.
  rewrite delayed_round_run. unfold settled.
  destruct (eve_bits (self w) !! i) as [[b|]|]; try tauto.
  destruct (eve_bases (self w) !! i) as [[d|]|]; tauto.
Qed.

Lemma delayed_round_settles i w w' :
  delayed_round i w = (Return tt, w') -> settled (self w') i.
Proof.
  rewrite delayed_round_run. unfold settled.
  destruct (eve_bits (self w) !! i) as [[b|]|] eqn:E1.
  - intros [= <-]. rewrite E1. exact I.
  - destruct (eve_bases (self w) !! i) as [[d|]|] eqn:E2.
    + intros [= <-]. rewrite E1, E2. exact I.
    + destruct (alice_bases (self w) !! i) as [ab|]; [|discriminate].
      cbv zeta. destruct (alice_bits (self w) !! i) as [a|]; [|discriminate].
      intros [= <-]. cbn.
      rewrite list_lookup_insert_eq by (eapply lookup_lt_Some; eauto).
      exact I.
    + discriminate.
  - discriminate.
Qed.

Lemma delayed_round_keeps j i w o w' :
  settled (self w) j -> delayed_round i w = (o, w') -> settled (self w') j.
Proof.
  rewrite delayed_round_run. intros Hj.
  destruct (eve_bits (self w) !! i) as [[b|]|] eqn:E1;
    try (intros [= <- <-]; exact Hj).
  destruct (eve_bases (self w) !! i) as [[d|]|] eqn:E2;
    try (intros [= <- <-]; exact Hj).
  destruct (alice_bases (self w) !! i) as [ab|];
    try (intros [= <- <-]; exact Hj).
  assert (Hne : i <> j).
  { intros ->. unfold settled in Hj. rewrite E1, E2 in Hj. exact Hj. }
  cbv zeta. destruct (alice_bits (self w) !! i) as [a|]; intros [= <- <-];
    unfold settled in *; cbn;
    rewrite ?list_lookup_insert_ne by exact Hne; exact Hj.
Qed.

(** The body never touches Alice's lists or the lengths of Eve's. *)
Lemma delayed_round_frame i w o w' :
  delayed_round i w = (o, w') ->
  alice_bits (self w') = alice_bits (self w)
  /\ alice_bases (self w') = alice_bases (self w)
  /\ length (eve_bits (self w')) = length (eve_bits (self w))
  /\ length (eve_bases (self w')) = length (eve_bases (self w)).
Proof.
  rewrite delayed_round_run.
  destruct (eve_bits (self w) !! i) as [[b|]|];
    try (intros [= <- <-]; auto).
  destruct (eve_bases (self w) !! i) as [[d|]|];
    try (intros [= <- <-]; auto).
  destruct (alice_bases (self w) !! i) as [ab|];
    try (intros [= <- <-]; auto).
  cbv zeta. destruct (alice_bits (self w) !! i) as [a|]; intros [= <- <-];
    cbn; rewrite ?length_insert; auto.
Qed.

(** With Alice's two lists of one length, a raising body has changed
    nothing. *)
Lemma delayed_round_raise i w e w' :
  length (alice_bits (self w)) = length (alice_bases (self w)) ->
  delayed_round i w = (Raise e, w') -> w' = w.
Proof.
  intros Hlen. rewrite delayed_round_run.
  destruct (eve_bits (self w) !! i) as [[b|]|];
    try (intros [= <- <-]; auto); try discriminate.
  destruct (eve_bases (self w) !! i) as [[d|]|];
    try (intros [= <- <-]; auto); try discriminate.
  destruct (alice_bases (self w) !! i) as [ab|] eqn:E3;
    try (intros [= <- <-]; auto).
  apply lookup_lt_Some in E3. rewrite <- Hlen in E3.
  apply lookup_lt_is_Some in E3. destruct E3 as [a ->].
  cbv zeta. discriminate.
Qed.

Lemma loop_keeps l : forall j w o w',
  settled (self w) j -> for_each l delayed_round w = (o, w') ->
  settled (self w') j.
Proof.
  induction l as [|i l IH]; intros j w o w' Hj.
  - intros [= <- <-]. exact Hj.
  - cbn [for_each]. unfold bind.
    destruct (delayed_round i w) as [[[]|e] w1] eqn:E.
    + intros H. eapply IH; [|exact H]. eapply delayed_round_keeps; eauto.
    + intros [= <- <-]. eapply delayed_round_keeps; eauto.
Qed.

Lemma loop_frame l : forall w o w',
  for_each l delayed_round w = (o, w') ->
  alice_bits (self w') = alice_bits (self w)
  /\ alice_bases (self w') = alice_bases (self w)
  /\ length (eve_bits (self w')) = length (eve_bits (self w))
  /\ length (eve_bases (self w')) = length (eve_bases (self w)).
Proof.
  induction l as [|i l IH]; intros w o w'.
  - intros [= <- <-]. auto.
  - cbn [for_each]. unfold bind.
    destruct (delayed_round i w) as [[[]|e] w1] eqn:E.
    + intros H. apply IH in H. apply delayed_round_frame in E.
      destruct H as (-> & -> & -> & ->). exact E.
    + intros [= <- <-]. eapply delayed_round_frame; eauto.
Qed.

(** A returning loop has settled every index it visited. *)
Lemma loop_settles l : forall w w',
  for_each l delayed_round w = (Return tt, w') ->
  forall i, In i l -> settled (self w') i.
Proof.
  induction l as [|j l IH]; intros w w' H i Hin.
  - destruct Hin.
  - cbn [for_each] in H. unfold bind in H.
    destruct (delayed_round j w) as [[[]|e] w1] eqn:E; [|discriminate].
    destruct Hin as [-> | Hin].
    + eapply loop_keeps; [|exact H]. eapply delayed_round_settles; eauto.
    + eapply IH; eauto.
Qed.

(** Running the loop again from where it stopped stops at the same place
    with the same state. *)
Lemma loop_again l : forall w o w',
  length (alice_bits (self w)) = length (alice_bases (self w)) ->
  for_each l delayed_round w = (o, w') ->
  for_each l delayed_round w' = (o, w').
Proof.
  induction l as [|i l IH]; intros w o w' Hlen.
  - intros [= <- <-]. reflexivity.
  - cbn [for_each]. unfold bind.
    destruct (delayed_round i w) as [[[]|e] w1] eqn:E.
    + intros H.
      assert (Hs : settled (self w') i).
      { eapply loop_keeps; [|exact H]. eapply delayed_round_settles; eauto. }
      rewrite (settled_run _ _ Hs).
      eapply IH; [|exact H].
      apply delayed_round_frame in E. destruct E as (-> & -> & _). exact Hlen.
    + intros [= <- <-]. apply delayed_round_raise in E as Hw; [|exact Hlen].
      subst w1. rewrite E. reflexivity.
Qed.

Lemma eve_delayed_measurement_again w :
  length (alice_bits (self w)) = length (alice_bases (self w)) ->
  eve_delayed_measurement (exec eve_delayed_measurement w)
  = eve_delayed_measurement w.
Proof.
  intros Hlen. unfold exec, eve_delayed_measurement, bind, gets.
  destruct (for_each _ delayed_round w) as [o w'] eqn:E.
  assert (E' := E). apply loop_frame in E' as (_ & _ & Hn & _).
  cbn [snd]. rewrite Hn. apply (loop_again _ _ _ _ Hlen E).
Qed.

(** ** Sample words *)

Example photon_of_vacuum_word : photon_of vacuum_word = 0.
Proof. reflexivity. Qed.
Example photon_of_single_word : photon_of single_word = 1.
Proof. reflexivity. Qed.
Example photon_of_multi_word : photon_of multi_word = 2.
Proof. reflexivity. Qed.

(** ** The sampler *)

(** The cumulative weights the sampler bisects: the doubles nearest 0.7 and
    0.95, and 1. *)
Lemma cum_weights_value :
  accumulate [0.7; 0.25; 0.05]%float = [0.7; 0.95; 1]%float.
Proof. reflexivity. Qed.

Lemma photon_of_thresholds x :
  photon_of x =
  let v := (uniform x * 1)%float in
  if PrimFloat.ltb v 0.7 then 0 else if PrimFloat.ltb v 0.95 then 1 else 2.
Proof. reflexivity. Qed.

(** At the doubles 0.7 and 0.95 themselves the count is already 1 and 2;
    one step below each it is still 0 and 1. *)
Example photon_of_at_first_threshold :
  photon_of 6305039478318694 = 1 /\ photon_of 6305039478318693 = 0.
Proof. split; reflexivity. Qed.

Example photon_of_at_second_threshold :
  photon_of 8556839292003942 = 2 /\ photon_of 8556839292003941 = 1.
Proof. split; reflexivity. Qed.

(** C9.  The sampler does not read the object: two simulators, whatever
    their [mean_photon_number] (and whatever else they hold), fed the same
    generator, return the same photon count and leave the generator in the
    same state.  The weights 0.7, 0.25 and 0.05 accumulate, in doubles, to
    0.7, 0.95 and 1, and the count is picked by [x = random() * 1.0]
    against them: 0 when [x < 0.7], 1 when not and [x < 0.95], and 2
    otherwise. *)
Theorem photon_number_ignores_mean (s1 s2 : PNSAttackSimulator) (g : Random) :
  let w1 := {| self := s1; gen := g |} in
  let w2 := {| self := s2; gen := g |} in
  result generate_photon_number w1 = result generate_photon_number w2
  /\ gen (exec generate_photon_number w1) = gen (exec generate_photon_number w2)
  /\ accumulate [0.7; 0.25; 0.05]%float = [0.7; 0.95; 1]%float
  /\ exists u pc,
       result random_random w1 = Return u
       /\ result generate_photon_number w1 = Return pc
       /\ pc = (let x := (u * 1)%float in
                if PrimFloat.ltb x 0.7 then 0
                else if PrimFloat.ltb x 0.95 then 1 else 2).
Proof.
  intros w1 w2. unfold result, exec.
  rewrite !generate_photon_number_run, random_random_run. cbn [fst snd].
  split; [reflexivity|]. split; [reflexivity|].
  split; [apply cum_weights_value|].
  exists (uniform (current_word w1)), (photon_of (current_word w1)).
  split; [reflexivity|]. split; [reflexivity|]. apply photon_of_thresholds.
Qed.

Lemma sampled_count w :
  result generate_photon_number w = Return (photon_of (current_word w)).
Proof. unfold result. rewrite generate_photon_number_run. reflexivity. Qed.

Lemma sampled_basis w :
  result (random_choice ["Z"; "X"]) (exec generate_photon_number w)
  = Return (drawn_basis w).
Proof.
  unfold result, exec. rewrite generate_photon_number_run. cbn [snd].
  rewrite random_choice_pair. reflexivity.
Qed.

(** ** The rounds of a run *)

(** C4.  In every run, with or without interception, round [i] has a
    receiver entry, and that entry is [None] exactly when the photon count
    sampled for round [i] is 0. *)
Theorem receiver_none_iff_vacuum mean e g rounds i :
  (i < length rounds)%nat ->
  exists pc x,
    result generate_photon_number (before rounds (start mean e g) i) = Return pc
    /\ bob_bits (self (run mean e g rounds)) !! i = Some x
    /\ (x = None <-> pc = 0).
Proof.
  intros Hi. apply lookup_lt_is_Some in Hi as [r Hr].
  destruct (round_entry mean e g rounds i r Hr) as (x & eb & ebs & Happ & Hx & _).
  exists (photon_of (current_word (before rounds (start mean e g) i))), x.
  split; [apply sampled_count|]. split; [exact Hx|].
  inversion Happ; subst; split; intros; congruence.
Qed.

Lemma receiver_none_iff_vacuum_witness :
  exists pc x,
    result generate_photon_number
      (before [mkRound 1 "Z" "X"] (start (1 # 10) true (tape [vacuum_word])) 0)
    = Return pc
    /\ bob_bits (self (run (1 # 10) true (tape [vacuum_word]) [mkRound 1 "Z" "X"]))
         !! 0%nat = Some x
    /\ (x = None <-> pc = 0).
Proof.
  apply (receiver_none_iff_vacuum (1 # 10) true (tape [vacuum_word])
           [mkRound 1 "Z" "X"] 0).
  cbn. lia.
Defined.

(** C5.  With interception on, take a round [i] whose photon count is 1.
    Eve's basis is the draw [d] that follows the photon-count draw.  If [d]
    is Alice's basis, Eve's bit for round [i] is Alice's bit; and whenever
    Bob's basis is [d], Bob's bit for round [i] is Eve's bit. *)
Theorem intercept_resend_correct mean g rounds i r :
  rounds !! i = Some r ->
  let w := before rounds (start mean true g) i in
  let s := self (run mean true g rounds) in
  result generate_photon_number w = Return 1 ->
  exists d eve_bit,
    result (random_choice ["Z"; "X"]) (exec generate_photon_number w) = Return d
    /\ eve_bits s !! i = Some (Some eve_bit)
    /\ (d = r_alice_basis r -> eve_bit = r_bit r)
    /\ (r_bob_basis r = d -> bob_bits s !! i = Some (Some eve_bit)).
Proof.
  intros Hr w s Hpc. subst s. unfold run.
  rewrite sampled_count in Hpc. injection Hpc as Hpc.
  destruct (round_entry mean true g rounds i r Hr)
    as (x & eb & ebs & Happ & Hx & Hy).
  destruct (Hy eq_refl) as (y & -> & Hey). fold w in Happ.
  exists (drawn_basis w). rewrite Hpc in Happ.
  inversion Happ; subst; try lia.
  exists eve_bit. split; [apply sampled_basis|]. split; [exact Hey|].
  split; [assumption|]. intros Hb. rewrite Hx. f_equal. f_equal. auto.
Qed.

Lemma intercept_resend_correct_witness :
  let rounds := [mkRound 1 "Z" "Z"] in
  let g := tape [single_word; 0%N] in
  exists d eve_bit,
    result (random_choice ["Z"; "X"])
      (exec generate_photon_number (before rounds (start (1 # 10) true g) 0))
    = Return d
    /\ eve_bits (self (run (1 # 10) true g rounds)) !! 0%nat = Some (Some eve_bit)
    /\ (d = "Z" -> eve_bit = 1)
    /\ ("Z" = d -> bob_bits (self (run (1 # 10) true g rounds)) !! 0%nat
                   = Some (Some eve_bit)).
Proof.
  intros rounds g.
  apply (intercept_resend_correct (1 # 10) g rounds 0 (mkRound 1 "Z" "Z")).
  - reflexivity.
  - vm_compute. reflexivity.
Defined.

(** C6.  With interception off, take a round [i] whose photon count is 1 or
    2 and in which Alice and Bob use the same basis.  Bob's bit for round
    [i] is Alice's bit, whatever the generator draws. *)
Theorem matching_basis_fidelity mean g rounds i r :
  rounds !! i = Some r ->
  let w := before rounds (start mean false g) i in
  result generate_photon_number w = Return 1
  \/ result generate_photon_number w = Return 2 ->
  r_alice_basis r = r_bob_basis r ->
  bob_bits (self (run mean false g rounds)) !! i = Some (Some (r_bit r)).
Proof.
  intros Hr w Hpc Hb. rewrite sampled_count in Hpc.
  assert (Hne : photon_of (current_word w) <> 0)
    by (destruct Hpc as [[= ->] | [= ->]]; discriminate).
  destruct (round_entry mean false g rounds i r Hr)
    as (x & eb & ebs & Happ & Hx & _).
  fold w in Happ. unfold run. rewrite Hx.
  inversion Happ; subst; try congruence.
  f_equal. f_equal. auto.
Qed.

Lemma matching_basis_fidelity_witness :
  bob_bits (self (run (1 # 10) false (tape [multi_word]) [mkRound 0 "X" "X"]))
    !! 0%nat = Some (Some 0).
Proof.
  apply (matching_basis_fidelity (1 # 10) (tape [multi_word])
           [mkRound 0 "X" "X"] 0 (mkRound 0 "X" "X")).
  - reflexivity.
  - right. vm_compute. reflexivity.
  - reflexivity.
Defined.

(** ** Resolving twice *)

(** X13.  On every history produced by [send_bit] calls, a second call of
    [eve_delayed_measurement] does what the first did and changes nothing:
    run from the state the first call left, it ends with the same outcome in
    that same state.  When the first call returned, no index is left with
    both of Eve's entries [None]. *)
Theorem resolve_twice mean e g rounds :
  let h := run mean e g rounds in
  let h1 := exec eve_delayed_measurement h in
  eve_delayed_measurement h1 = eve_delayed_measurement h
  /\ exec eve_delayed_measurement h1 = h1
  /\ (result eve_delayed_measurement h = Return tt ->
      forall i, ~ (eve_bits (self h1) !! i = Some None
                   /\ eve_bases (self h1) !! i = Some None)).
Proof.
  intros h h1.
  assert (Hlen : length (alice_bits (self h)) = length (alice_bases (self h))).
  { pose proof (run_history mean e g rounds) as H.
    fold (run mean e g rounds) in H. fold h in H.
    rewrite (h_alice_bits _ _ H), (h_alice_bases _ _ H). reflexivity. }
  pose proof (eve_delayed_measurement_again h Hlen) as Hagain. fold h1 in Hagain.
  split; [exact Hagain|]. split.
  - unfold exec at 1. rewrite Hagain. reflexivity.
  - intros Hret i [Hb Hd].
    assert (Hi : (i < length (eve_bits (self h)))%nat).
    { apply lookup_lt_Some in Hb. subst h1. unfold exec in Hb.
      unfold eve_delayed_measurement, bind, gets in Hb.
      destruct (for_each _ delayed_round h) as [o w'] eqn:E.
      apply loop_frame in E as (_ & _ & Hn & _). cbn [snd] in Hb. lia. }
    assert (Hs : settled (self h1) i).
    { subst h1. unfold exec, result in *.
      unfold eve_delayed_measurement, bind, gets in *.
      destruct (for_each _ delayed_round h) as [o w'] eqn:E.
      cbn [fst] in Hret. subst o. cbn [snd].
      eapply loop_settles; [exact E|]. apply in_seq. lia. }
    unfold settled in Hs. rewrite Hb, Hd in Hs. exact Hs.
Qed.

Lemma resolve_twice_witness :
  let h := run (1 # 10) false (tape [single_word]) [mkRound 0 "X" "X"] in
  let h1 := exec eve_delayed_measurement h in
  eve_delayed_measurement h1 = eve_delayed_measurement h
  /\ exec eve_delayed_measurement h1 = h1
  /\ forall i, ~ (eve_bits (self h1) !! i = Some None
                  /\ eve_bases (self h1) !! i = Some None).
Proof.
  intros h h1.
  destruct (resolve_twice (1 # 10) false (tape [single_word]) [mkRound 0 "X" "X"])
    as (H1 & H2 & H3).
  split; [exact H1|]. split; [exact H2|].
  apply H3. vm_compute. reflexivity.
Defined.

(** ** Vacuum rounds and Eve's lists *)

(** A vacuum round appends nothing to [eve_bases], so after it [eve_bases]
    is shorter than Alice's and Bob's lists, in every run. *)
Lemma vacuum_round_drops_eve_bases mean e g rounds a ab bb :
  let h := run mean e g rounds in
  let s := self (exec (send_bit a ab bb) h) in
  result generate_photon_number h = Return 0 ->
  length (alice_bits s) = S (length rounds)
  /\ (length (eve_bases s) <= length rounds)%nat.
Proof.
  intros h s Hpc. rewrite sampled_count in Hpc. injection Hpc as Hpc.
  pose proof (run_history mean e g rounds) as Hh.
  fold (run mean e g rounds) in Hh. fold h in Hh.
  subst s. unfold exec.
  destruct (send_bit_run a ab bb h) as (x & eb & ebs & g' & -> & Happ).
  cbn. rewrite !length_app, (h_alice_bits _ _ Hh). cbn.
  pose proof (h_eve_bits_le _ _ Hh). pose proof (h_eve_bases_le _ _ Hh).
  inversion Happ; subst; cbn; try lia; congruence.
Qed.

(** C1.  One vacuum round with interception on: the four lists of Alice and
    Bob and [eve_bits] get an entry, [eve_bases] gets none.  With
    interception off neither of Eve's lists gets one. *)
Theorem vacuum_round_breaks_alignment :
  let s := self (run (1 # 10) true (tape [vacuum_word]) [mkRound 1 "Z" "Z"]) in
  let s' := self (run (1 # 10) false (tape [vacuum_word]) [mkRound 1 "Z" "Z"]) in
  (length (alice_bits s) = 1 /\ length (alice_bases s) = 1
   /\ length (bob_bases s) = 1 /\ length (bob_bits s) = 1
   /\ length (eve_bits s) = 1 /\ length (eve_bases s) = 0)%nat
  /\ (length (alice_bits s') = 1 /\ length (bob_bits s') = 1
      /\ length (eve_bits s') = 0 /\ length (eve_bases s') = 0)%nat.
Proof. vm_compute. repeat split. Qed.

(** C2.  Interception on, a vacuum round and then a two-photon round.  The
    second round appended [None] to both of Eve's lists, but its basis sits
    at index 0, not 1.  [eve_delayed_measurement] gives index 0 (the vacuum
    round) Alice's values and raises [IndexError] at index 1: Eve's bit of
    the two-photon round stays [None]. *)
Theorem split_after_vacuum_stays_unresolved :
  let rounds := [mkRound 0 "Z" "Z"; mkRound 1 "Z" "X"] in
  let g := tape [vacuum_word; multi_word; 0%N] in
  let h := run (1 # 10) true g rounds in
  let h1 := exec eve_delayed_measurement h in
  result generate_photon_number (before rounds (start (1 # 10) true g) 1)
  = Return 2
  /\ eve_bits (self h) = [None; None]
  /\ eve_bases (self h) = [None]
  /\ result eve_delayed_measurement h = Raise IndexError
  /\ eve_bits (self h1) = [Some 0; None]
  /\ eve_bases (self h1) = [Some "Z"].
Proof. vm_compute. repeat split. Qed.

(** C3.  Interception off, one single-photon round with matching bases.
    Bob gets Alice's bit and Eve's entries are [None]; then
    [eve_delayed_measurement] returns and has set them to Alice's bit and
    basis. *)
Theorem quiet_round_gets_resolved :
  let h := run (1 # 10) false (tape [single_word]) [mkRound 0 "X" "X"] in
  let h1 := exec eve_delayed_measurement h in
  bob_bits (self h) = [Some 0]
  /\ eve_bits (self h) = [None]
  /\ eve_bases (self h) = [None]
  /\ result eve_delayed_measurement h = Return tt
  /\ eve_bits (self h1) = [Some 0]
  /\ eve_bases (self h1) = [Some "X"].
Proof. vm_compute. repeat split. Qed.

(** C7.  Interception on, a vacuum round and then a single-photon round.
    At index 0 Eve's bit is [None] while her basis is set (it is the basis
    drawn in the second round); at index 1 her bit is set and there is no
    basis.  [eve_delayed_measurement] returns and changes neither. *)
Theorem resend_after_vacuum_half_resolved :
  let rounds := [mkRound 0 "Z" "Z"; mkRound 1 "Z" "Z"] in
  let h := run (1 # 10) true (tape [vacuum_word; single_word; 0%N]) rounds in
  let h1 := exec eve_delayed_measurement h in
  eve_bits (self h) !! 0%nat = Some None
  /\ eve_bases (self h) !! 0%nat = Some (Some "Z")
  /\ eve_bits (self h) !! 1%nat = Some (Some 1)
  /\ eve_bases (self h) !! 1%nat = None
  /\ result eve_delayed_measurement h = Return tt
  /\ self h1 = self h.
Proof. vm_compute. repeat split. Qed.

(** C8.  Interception on, a vacuum round and then a single-photon round in
    which Eve draws Alice's basis.  [eve_delayed_measurement] returns, and
    after it Eve's bit at index 0 is still [None] (beside the basis of the
    second round): the first resolution leaves an entry in the sentinel
    state.  After one vacuum round alone the call raises and leaves the
    [None] as well.  A second call changes nothing. *)
Theorem resolved_history_keeps_sentinel :
  let rounds := [mkRound 1 "X" "Z"; mkRound 0 "X" "X"] in
  let h := run (1 # 10) true (tape [vacuum_word; single_word; 1%N]) rounds in
  let h1 := exec eve_delayed_measurement h in
  let k := run (1 # 10) true (tape [vacuum_word]) [mkRound 1 "X" "Z"] in
  let k1 := exec eve_delayed_measurement k in
  result eve_delayed_measurement h = Return tt
  /\ eve_bits (self h1) = [None; Some 0]
  /\ eve_bases (self h1) = [Some "X"]
  /\ eve_delayed_measurement h1 = (Return tt, h1)
  /\ result eve_delayed_measurement k = Raise IndexError
  /\ eve_bits (self k1) = [None]
  /\ eve_bases (self k1) = [].
Proof. vm_compute. repeat split. Qed.

(** C10.  Interception on, one vacuum round: [eve_bits] is [[None]] and
    [eve_bases] is empty, and [eve_delayed_measurement] raises [IndexError]
    on [eve_bases[0]]. *)
Theorem resolve_raises_after_vacuum :
  let h := run (1 # 10) true (tape [vacuum_word]) [mkRound 1 "Z" "Z"] in
  eve_bits (self h) = [None]
  /\ eve_bases (self h) = []
  /\ result eve_delayed_measurement h = Raise IndexError.
Proof. vm_compute. repeat split. Qed.

(** ** Runs without a vacuum round

    Where no round is a vacuum round the six lists stay aligned, and the
    resolver does what its docstring says. *)

Lemma run_snoc mean e g rounds r :
  run mean e g (rounds ++ [r]) = exec (send_round r) (run mean e g rounds).
Proof.
  unfold run, exec. rewrite transmit_all_app, transmit_all_cons. reflexivity.
Qed.

Lemma before_all rounds w :
  before rounds w (length rounds) = exec (transmit_all rounds) w.
Proof. unfold before. rewrite take_ge by lia. reflexivity. Qed.

Lemma before_snoc rounds r w i :
  (i <= length rounds)%nat -> before (rounds ++ [r]) w i = before rounds w i.
Proof. intros Hi. unfold before. rewrite take_app_le by exact Hi. reflexivity. Qed.

Lemma before_take rounds w i j :
  (j <= i)%nat -> before (take i rounds) w j = before rounds w j.
Proof.
  intros Hj. unfold before. rewrite take_take, Nat.min_l by exact Hj.
  reflexivity.
Qed.

Lemma no_vacuum_snoc rounds r w :
  no_vacuum (rounds ++ [r]) w ->
  no_vacuum rounds w
  /\ result generate_photon_number (exec (transmit_all rounds) w) <> Return 0.
Proof.
  intros H. split.
  - intros i Hi. rewrite <- (before_snoc rounds r w i) by lia.
    apply H. rewrite length_app. cbn. lia.
  - rewrite <- before_all, <- (before_snoc rounds r w) by lia.
    apply H. rewrite length_app. cbn. lia.
Qed.

Lemma no_vacuum_take rounds w i :
  no_vacuum rounds w -> no_vacuum (take i rounds) w.
Proof.
  intros H j Hj. rewrite length_take in Hj.
  rewrite before_take by lia. apply H. lia.
Qed.

Lemma send_round_aligned n r w :
  aligned n (self w) ->
  result generate_photon_number w <> Return 0 ->
  aligned (S n) (self (exec (send_round r) w)).
Proof.
  intros [Hh Hb Hs] Hpc. rewrite sampled_count in Hpc.
  split; [apply send_round_history, Hh | |];
    unfold exec, send_round;
    destruct (send_bit_run (r_bit r) (r_alice_basis r) (r_bob_basis r) w)
      as (x & eb & ebs & g' & -> & Happ);
    cbn; rewrite length_app;
    inversion Happ; subst; cbn; try lia; congruence.
Qed.

Lemma run_aligned mean e g rounds :
  no_vacuum rounds (start mean e g) ->
  aligned (length rounds) (self (run mean e g rounds)).
Proof.
  induction rounds as [|r rounds IH] using rev_ind; intros Hnv.
  - split; [apply history_init | reflexivity | reflexivity].
  - apply no_vacuum_snoc in Hnv as [Hnv Hpc].
    rewrite run_snoc, length_app. cbn [length].
    rewrite Nat.add_1_r. apply send_round_aligned; [apply IH, Hnv | exact Hpc].
Qed.

(** Round [i] of a run without vacuum rounds: every list holds the round's
    entry at index [i]. *)
Lemma aligned_round_entry mean e g rounds i r :
  no_vacuum rounds (start mean e g) ->
  rounds !! i = Some r ->
  let w := before rounds (start mean e g) i in
  let s := self (run mean e g rounds) in
  exists x y z,
    appended e (photon_of (current_word w)) (drawn_basis w)
             (r_bit r) (r_alice_basis r) (r_bob_basis r) x [y] [z]
    /\ bob_bits s !! i = Some x
    /\ eve_bits s !! i = Some y
    /\ eve_bases s !! i = Some z
    /\ alice_bits s !! i = Some (r_bit r)
    /\ alice_bases s !! i = Some (r_alice_basis r).
Proof.
  intros Hnv Hr w s.
  assert (Hsplit : rounds = take i rounds ++ r :: drop (S i) rounds).
  { symmetry. apply take_drop_middle, Hr. }
  assert (Hi : (i < length rounds)%nat) by (eapply lookup_lt_Some; eauto).
  pose proof (run_aligned mean e g (take i rounds) (no_vacuum_take _ _ i Hnv))
    as [Hh Hb Hs].
  rewrite length_take, Nat.min_l in Hh, Hb, Hs by lia.
  change (run mean e g (take i rounds)) with w in Hh, Hb, Hs.
  pose proof (run_intercept mean e g (take i rounds)) as He.
  change (exec (transmit_all (take i rounds)) (start mean e g)) with w in He.
  assert (Hpc : photon_of (current_word w) <> 0).
  { intros H0. apply (Hnv i Hi). fold w. rewrite sampled_count, H0. reflexivity. }
  assert (Hfin : s = self (exec (transmit_all (drop (S i) rounds))
                                (exec (send_round r) w))).
  { subst s. unfold run. rewrite Hsplit at 1. unfold exec at 1.
    rewrite transmit_all_app, transmit_all_cons. reflexivity. }
  pose proof (transmit_all_extends (drop (S i) rounds) (exec (send_round r) w))
    as Hext.
  rewrite <- Hfin in Hext.
  revert Hext. unfold exec at 1, send_round.
  destruct (send_bit_run (r_bit r) (r_alice_basis r) (r_bob_basis r) w)
    as (x & eb & ebs & g' & -> & Happ).
  cbn [snd self]. intros Hext. rewrite He in Happ. clearbody w s.
  assert (exists y z, eb = [y] /\ ebs = [z]) as (y & z & -> & ->).
  { inversion Happ; subst; eauto; congruence. }
  exists x, y, z. split; [exact Happ|].
  repeat split.
  - eapply extends_lookup; [apply (ext_bob_bits _ _ Hext)|]. cbn.
    rewrite lookup_app_r by (rewrite (h_bob_bits _ _ Hh); lia).
    rewrite (h_bob_bits _ _ Hh), Nat.sub_diag. reflexivity.
  - eapply extends_lookup; [apply (ext_eve_bits _ _ Hext)|]. cbn.
    rewrite lookup_app_r by lia. rewrite Hb, Nat.sub_diag. reflexivity.
  - eapply extends_lookup; [apply (ext_eve_bases _ _ Hext)|]. cbn.
    rewrite lookup_app_r by lia. rewrite Hs, Nat.sub_diag. reflexivity.
  - eapply extends_lookup; [apply (ext_alice_bits _ _ Hext)|]. cbn.
    rewrite lookup_app_r by (rewrite (h_alice_bits _ _ Hh); lia).
    rewrite (h_alice_bits _ _ Hh), Nat.sub_diag. reflexivity.
  - eapply extends_lookup; [apply (ext_alice_bases _ _ Hext)|]. cbn.
    rewrite lookup_app_r by (rewrite (h_alice_bases _ _ Hh); lia).
    rewrite (h_alice_bases _ _ Hh), Nat.sub_diag. reflexivity.
Qed.

Section ResolverEffect.

Implicit Types (w : World) (i j : nat).

Lemma delayed_round_other i j w o w' :
  i <> j -> delayed_round j w = (o, w') ->
  eve_bits (self w') !! i = eve_bits (self w) !! i
  /\ eve_bases (self w') !! i = eve_bases (self w) !! i.
Proof.
  intros Hne. rewrite delayed_round_run.
  destruct (eve_bits (self w) !! j) as [[b|]|];
    try (intros [= <- <-]; auto).
  destruct (eve_bases (self w) !! j) as [[d|]|];
    try (intros [= <- <-]; auto).
  destruct (alice_bases (self w) !! j) as [ab|];
    try (intros [= <- <-]; auto).
  cbv zeta. destruct (alice_bits (self w) !! j) as [a|]; intros [= <- <-];
    cbn; rewrite ?list_lookup_insert_ne by auto; auto.
Qed.

Lemma loop_other l : forall i w o w',
  ~ In i l -> for_each l delayed_round w = (o, w') ->
  eve_bits (self w') !! i = eve_bits (self w) !! i
  /\ eve_bases (self w') !! i = eve_bases (self w) !! i.
Proof.
  induction l as [|j l IH]; intros i w o w' Hnin.
  - intros [= <- <-]. auto.
  - cbn [for_each]. unfold bind.
    assert (Hne : i <> j) by (intros ->; apply Hnin; left; reflexivity).
    assert (Hnin' : ~ In i l) by (intros H; apply Hnin; right; exact H).
    destruct (delayed_round j w) as [[[]|e] w1] eqn:E.
    + intros H. apply (IH i) in H as [-> ->]; [|exact Hnin'].
      eapply delayed_round_other; eauto.
    + intros [= <- <-]. eapply delayed_round_other; eauto.
Qed.

(** At an index where both of Eve's entries are [None], the body copies
    Alice's basis and bit. *)
Lemma delayed_round_resolves i w a ab :
  eve_bits (self w) !! i = Some None ->
  eve_bases (self w) !! i = Some None ->
  alice_bits (self w) !! i = Some a ->
  alice_bases (self w) !! i = Some ab ->
  exists w',
    delayed_round i w = (Return tt, w')
    /\ eve_bits (self w') !! i = Some (Some a)
    /\ eve_bases (self w') !! i = Some (Some ab).
Proof.
  intros H1 H2 H3 H4. rewrite delayed_round_run, H1, H2, H4. cbv zeta.
  rewrite H3. eexists. split; [reflexivity|]. cbn.
  apply lookup_lt_Some in H1, H2.
  rewrite !list_lookup_insert_eq by assumption. auto.
Qed.

Lemma loop_resolves l : NoDup l -> forall w w' i a ab,
  for_each l delayed_round w = (Return tt, w') ->
  In i l ->
  eve_bits (self w) !! i = Some None ->
  eve_bases (self w) !! i = Some None ->
  alice_bits (self w) !! i = Some a ->
  alice_bases (self w) !! i = Some ab ->
  eve_bits (self w') !! i = Some (Some a)
  /\ eve_bases (self w') !! i = Some (Some ab).
Proof.
  induction 1 as [|j l Hj Hnd IH]; intros w w' i a ab Hrun Hin H1 H2 H3 H4.
  - destruct Hin.
  - cbn [for_each] in Hrun. unfold bind in Hrun.
    destruct (delayed_round j w) as [[[]|e] w1] eqn:E; [|discriminate].
    destruct (Nat.eq_dec i j) as [-> | Hne].
    + destruct (delayed_round_resolves j w a ab H1 H2 H3 H4)
        as (w2 & E2 & Hb & Hd).
      rewrite E in E2. injection E2 as <-.
      apply (loop_other l j) in Hrun as [-> ->]; [auto|].
      rewrite <- list_elem_of_In. exact Hj.
    + destruct Hin as [-> | Hin]; [congruence|].
      pose proof (delayed_round_other i j w _ _ Hne E) as [Eb Ed].
      pose proof (delayed_round_frame j w _ _ E) as (Ea & Eab & _).
      eapply IH; eauto; congruence.
Qed.

Lemma delayed_round_returns i w :
  in_bounds (self w) i -> exists w', delayed_round i w = (Return tt, w').
Proof.
  intros (H1 & H2 & H3 & H4). rewrite delayed_round_run.
  apply lookup_lt_is_Some in H1 as [b ->], H2 as [d ->],
    H3 as [ab ->], H4 as [a ->].
  destruct b, d; cbv zeta; eauto.
Qed.

Lemma loop_returns l : forall w,
  (forall i, In i l -> in_bounds (self w) i) ->
  exists w', for_each l delayed_round w = (Return tt, w').
Proof.
  induction l as [|j l IH]; intros w Hb.
  - eexists. reflexivity.
  - cbn [for_each]. unfold bind.
    destruct (delayed_round_returns j w) as [w1 E];
      [apply Hb; left; reflexivity|].
    rewrite E. apply IH. intros i Hi.
    pose proof (delayed_round_frame j w _ _ E) as (Ea & Eab & Eb & Ed).
    specialize (Hb i (or_intror Hi)). unfold in_bounds in *.
    rewrite Ea, Eab, Eb, Ed. exact Hb.
Qed.

(** The resolver returns whenever [eve_bits] is no longer than the three
    lists it reads by the same index. *)
Lemma eve_delayed_measurement_returns w :
  (length (eve_bits (self w)) <= length (eve_bases (self w)))%nat ->
  (length (eve_bits (self w)) <= length (alice_bases (self w)))%nat ->
  (length (eve_bits (self w)) <= length (alice_bits (self w)))%nat ->
  result eve_delayed_measurement w = Return tt.
Proof.
  intros H1 H2 H3. unfold result, eve_delayed_measurement, bind, gets.
  destruct (loop_returns (seq 0 (length (eve_bits (self w)))) w) as [w' ->].
  - intros i Hi. apply in_seq in Hi. unfold in_bounds. lia.
  - reflexivity.
Qed.

End ResolverEffect.

(** With interception off the resolver returns on every history. *)
Lemma resolve_returns_when_quiet mean g rounds :
  result eve_delayed_measurement (run mean false g rounds) = Return tt.
Proof.
  pose proof (run_history mean false g rounds) as H.
  pose proof (run_intercept mean false g rounds) as He.
  fold (run mean false g rounds) in H, He.
  pose proof (h_eve_quiet _ _ H He). pose proof (h_eve_bits_le _ _ H).
  apply eve_delayed_measurement_returns;
    rewrite ?(h_alice_bits _ _ H), ?(h_alice_bases _ _ H); lia.
Qed.

(** With interception on and no vacuum round in the run, a round [i] with
    more than one photon leaves both of Eve's entries [None], and the
    resolver returns having set them to Alice's bit and basis. *)
Lemma split_round_resolved_without_vacuum mean g rounds i r :
  no_vacuum rounds (start mean true g) ->
  rounds !! i = Some r ->
  let h := run mean true g rounds in
  let h1 := exec eve_delayed_measurement h in
  result generate_photon_number (before rounds (start mean true g) i) = Return 2 ->
  eve_bits (self h) !! i = Some None
  /\ eve_bases (self h) !! i = Some None
  /\ result eve_delayed_measurement h = Return tt
  /\ eve_bits (self h1) !! i = Some (Some (r_bit r))
  /\ eve_bases (self h1) !! i = Some (Some (r_alice_basis r)).
Proof.
  intros Hnv Hr h h1 Hpc. rewrite sampled_count in Hpc. injection Hpc as Hpc.
  destruct (aligned_round_entry mean true g rounds i r Hnv Hr)
    as (x & y & z & Happ & _ & Hy & Hz & Ha & Hab).
  fold h in Hy, Hz, Ha, Hab. rewrite Hpc in Happ.
  assert (y = None /\ z = None) as [-> ->]
    by (inversion Happ; subst; try lia; auto).
  pose proof (run_aligned mean true g rounds Hnv) as [Hh Hb Hs]. fold h in Hh, Hb, Hs.
  assert (Hret : result eve_delayed_measurement h = Return tt).
  { apply eve_delayed_measurement_returns;
      rewrite ?(h_alice_bits _ _ Hh), ?(h_alice_bases _ _ Hh); lia. }
  split; [exact Hy|]. split; [exact Hz|]. split; [exact Hret|].
  subst h1. unfold exec. unfold result in Hret.
  unfold eve_delayed_measurement, bind, gets in *.
  destruct (for_each _ delayed_round h) as [o w'] eqn:E.
  cbn [fst] in Hret. subst o. cbn [snd].
  eapply loop_resolves; eauto.
  - apply NoDup_ListNoDup, List.seq_NoDup.
  - apply in_seq. apply lookup_lt_Some in Hy. lia.
Qed.

Lemma split_round_resolved_without_vacuum_example :
  let rounds := [mkRound 1 "Z" "X"] in
  let h := run (1 # 10) true (tape [multi_word; 0%N]) rounds in
  let h1 := exec eve_delayed_measurement h in
  eve_bits (self h) !! 0%nat = Some None
  /\ eve_bases (self h) !! 0%nat = Some None
  /\ result eve_delayed_measurement h = Return tt
  /\ eve_bits (self h1) !! 0%nat = Some (Some 1)
  /\ eve_bases (self h1) !! 0%nat = Some (Some "Z").
Proof.
  intros rounds h h1.
  apply (split_round_resolved_without_vacuum (1 # 10)
           (tape [multi_word; 0%N]) rounds 0 (mkRound 1 "Z" "X")).
  - intros i Hi. cbn in Hi. assert (i = 0%nat) by lia. subst i.
    vm_compute. discriminate.
  - reflexivity.
  - vm_compute. reflexivity.
Qed.

(** * Further properties *)

(** ** One [send_bit] call, from any state *)

(** What a call writes and how many draws it makes. *)
Lemma send_bit_draws a ab bb w :
  exists x ebits ebases g',
    send_bit a ab bb w
    = (Return tt,
       {| self :=
            mkSim (mean_photon_number (self w)) (eve_intercept (self w))
                  (alice_bits (self w) ++ [a]) (alice_bases (self w) ++ [ab])
                  (bob_bits (self w) ++ [x]) (bob_bases (self w) ++ [bb])
                  (eve_bits (self w) ++ ebits) (eve_bases (self w) ++ ebases);
          gen := g' |})
    /\ sent_bit a x
    /\ Forall (sent_bit a) ebits
    /\ Forall sent_basis ebases
    /\ (length ebases <= length ebits <= 1)%nat
    /\ words g' = words (gen w)
    /\ (cursor (gen w) < cursor g' <= cursor (gen w) + 4)%nat
    /\ (photon_of (current_word w) = 0 -> cursor g' = S (cursor (gen w)))
    /\ (eve_intercept (self w) = false ->
        (cursor g' <= cursor (gen w) + 2)%nat).
Proof.
  unfold send_bit, bind. rewrite generate_photon_number_run.
  destruct w as [[m e abits abases bbits bbases ebits ebases] g].
  set (pc := photon_of _).
  cbn.
  destruct (pc =? 0) eqn:E0.
  { destruct e; cbn.
    - exists None, [None], []. eexists. rewrite app_nil_r.
      split; [reflexivity|]. unfold sent_bit.
      repeat split; cbn; auto; try lia; try discriminate.
    - exists None, [], []. eexists. rewrite !app_nil_r.
      split; [reflexivity|]. unfold sent_bit.
      repeat split; cbn; auto; try lia. }
  apply Z.eqb_neq in E0.
  repeat
    (cbn;
     match goal with
     | |- context [random_choice [?x; ?y] ?w0] =>
         rewrite (random_choice_pair x y w0)
     | |- context [if (?c =? 0)%N then _ else _] => destruct (c =? 0)%N
     | |- context [if ?c then _ else _] => destruct c
     end);
    cbn; do 4 eexists; (split; [reflexivity|]);
    unfold sent_bit, sent_basis;
    repeat split; cbn; auto 6; try lia; try discriminate;
    try (intros; congruence).
Qed.

(** X1.  From any state, whatever the arguments and the draws, [send_bit]
    returns without raising.  It leaves the configuration alone, appends its
    three arguments to [alice_bits], [alice_bases] and [bob_bases], appends
    one entry to [bob_bits] and at most one to each of Eve's lists, and
    changes no entry that was already there. *)
Theorem send_bit_appends a ab bb w :
  let s := self w in
  let s' := self (exec (send_bit a ab bb) w) in
  result (send_bit a ab bb) w = Return tt
  /\ mean_photon_number s' = mean_photon_number s
  /\ eve_intercept s' = eve_intercept s
  /\ alice_bits s' = alice_bits s ++ [a]
  /\ alice_bases s' = alice_bases s ++ [ab]
  /\ bob_bases s' = bob_bases s ++ [bb]
  /\ (exists x, bob_bits s' = bob_bits s ++ [x])
  /\ (exists l, eve_bits s' = eve_bits s ++ l /\ (length l <= 1)%nat)
  /\ (exists l, eve_bases s' = eve_bases s ++ l /\ (length l <= 1)%nat).
Proof.
  intros s s'. subst s s'. unfold result, exec.
  destruct (send_bit_draws a ab bb w)
    as (x & eb & ebs & g' & -> & _ & _ & _ & Hlen & _).
  cbn. repeat split; eauto.
  - exists eb. split; [reflexivity | lia].
  - exists ebs. split; [reflexivity | lia].
Qed.

Lemma exec_transmit_all_cons r rs w :
  exec (transmit_all (r :: rs)) w
  = exec (transmit_all rs) (exec (send_round r) w).
Proof.
  unfold exec at 1. rewrite transmit_all_cons. reflexivity.
Qed.

Lemma transmit_all_records rounds : forall w,
  let s' := self (exec (transmit_all rounds) w) in
  alice_bits s' = alice_bits (self w) ++ map r_bit rounds
  /\ alice_bases s' = alice_bases (self w) ++ map r_alice_basis rounds
  /\ bob_bases s' = bob_bases (self w) ++ map r_bob_basis rounds.
Proof.
  induction rounds as [|r rs IH]; intros w; cbn zeta.
  - cbn. rewrite !app_nil_r. auto.
  - rewrite exec_transmit_all_cons.
    destruct (IH (exec (send_round r) w)) as (-> & -> & ->).
    unfold exec, send_round.
    destruct (send_bit_draws (r_bit r) (r_alice_basis r) (r_bob_basis r) w)
      as (x & eb & ebs & g' & -> & _).
    cbn. rewrite <- !app_assoc. auto.
Qed.

(** X2.  A run of [send_bit] calls on a fresh object never raises and
    records its inputs in order: [alice_bits], [alice_bases] and
    [bob_bases] are the bits and bases the calls were given, and [bob_bits]
    has one entry per call. *)
Theorem run_records_inputs mean e g rounds :
  let s := self (run mean e g rounds) in
  result (transmit_all rounds) (start mean e g) = Return tt
  /\ alice_bits s = map r_bit rounds
  /\ alice_bases s = map r_alice_basis rounds
  /\ bob_bases s = map r_bob_basis rounds
  /\ length (bob_bits s) = length rounds.
Proof.
  intros s. subst s. unfold result, run.
  rewrite transmit_all_returns. split; [reflexivity|].
  destruct (transmit_all_records rounds (start mean e g)) as (-> & -> & ->).
  repeat split.
  apply (h_bob_bits _ _ (run_history mean e g rounds)).
Qed.

(** X3.  With interception on, a round [i] with two photons in which Alice
    and Bob use the same basis gives Bob Alice's bit: Eve's split does not
    disturb what Bob measures. *)
Theorem split_round_transparent mean g rounds i r :
  rounds !! i = Some r ->
  result generate_photon_number (before rounds (start mean true g) i) = Return 2 ->
  r_alice_basis r = r_bob_basis r ->
  bob_bits (self (run mean true g rounds)) !! i = Some (Some (r_bit r)).
Proof.
  intros Hr Hpc Hb. rewrite sampled_count in Hpc. injection Hpc as Hpc.
  destruct (round_entry mean true g rounds i r Hr)
    as (x & eb & ebs & Happ & Hx & _).
  unfold run. rewrite Hx. rewrite Hpc in Happ.
  inversion Happ; subst; try lia; try discriminate.
  f_equal. f_equal. auto.
Qed.

Lemma split_round_transparent_witness :
  bob_bits (self (run (1 # 10) true (tape [multi_word]) [mkRound 1 "X" "X"]))
    !! 0%nat = Some (Some 1).
Proof.
  apply (split_round_transparent (1 # 10) (tape [multi_word])
           [mkRound 1 "X" "X"] 0 (mkRound 1 "X" "X")).
  - reflexivity.
  - vm_compute. reflexivity.
  - reflexivity.
Defined.

(** X4.  The draws of one [send_bit] call.  The call never changes the
    generator's words; it makes the photon-count draw and at most three
    more.  A vacuum round makes the photon-count draw only, and with
    interception off a call makes at most two draws. *)
Theorem send_bit_draw_count a ab bb w :
  let g := gen w in
  let g' := gen (exec (send_bit a ab bb) w) in
  words g' = words g
  /\ (cursor g < cursor g' <= cursor g + 4)%nat
  /\ (result generate_photon_number w = Return 0 -> cursor g' = S (cursor g))
  /\ (eve_intercept (self w) = false -> (cursor g' <= cursor g + 2)%nat).
Proof.
  intros g g'. subst g g'. unfold exec.
  destruct (send_bit_draws a ab bb w)
    as (x & eb & ebs & g' & -> & _ & _ & _ & _ & Hw & Hc & Hv & Hq).
  cbn. repeat split; auto; try lia.
  intros Hpc. rewrite sampled_count in Hpc. injection Hpc as Hpc. auto.
Qed.

Lemma send_bit_draw_count_witness :
  let w := start (1 # 10) false (tape [vacuum_word]) in
  cursor (gen (exec (send_bit 1 "Z" "X") w)) = 1%nat
  /\ (cursor (gen (exec (send_bit 1 "Z" "X") w)) <= 2)%nat.
Proof.
  intros w.
  destruct (send_bit_draw_count 1 "Z" "X" w) as (_ & _ & Hv & Hq).
  split; [apply Hv; vm_compute; reflexivity | apply Hq; reflexivity].
Defined.

(** ** The values in the lists *)

Lemma sent_bit_binary a o : is_bit a -> sent_bit a o -> bit_or_none o.
Proof.
  unfold sent_bit. intros Ha [-> | [-> | [-> | ->]]]; cbn; unfold is_bit; auto.
Qed.

Lemma transmit_all_values rounds : forall w,
  Forall (fun r => is_bit (r_bit r)) rounds ->
  let s' := self (exec (transmit_all rounds) w) in
  (Forall bit_or_none (bob_bits (self w)) -> Forall bit_or_none (bob_bits s'))
  /\ (Forall bit_or_none (eve_bits (self w)) -> Forall bit_or_none (eve_bits s')).
Proof.
  induction rounds as [|r rs IH]; intros w Hbits; cbn zeta.
  - auto.
  - rewrite exec_transmit_all_cons. inversion Hbits as [|? ? Hr Hrs]; subst.
    destruct (IH (exec (send_round r) w) Hrs) as [IHb IHe].
    assert (Hstep :
      (Forall bit_or_none (bob_bits (self w)) ->
       Forall bit_or_none (bob_bits (self (exec (send_round r) w))))
      /\ (Forall bit_or_none (eve_bits (self w)) ->
          Forall bit_or_none (eve_bits (self (exec (send_round r) w))))).
    { unfold exec, send_round.
      destruct (send_bit_draws (r_bit r) (r_alice_basis r) (r_bob_basis r) w)
        as (x & eb & ebs & g' & -> & Hx & Heb & _).
      cbn. split; intros H; apply Forall_app; split; auto.
      - repeat constructor. eapply sent_bit_binary; eauto.
      - eapply Forall_impl; [exact Heb|]. intros o. apply sent_bit_binary, Hr. }
    destruct Hstep as [Sb Se]. split; auto.
Qed.

Lemma transmit_all_bases rounds : forall w,
  Forall sent_basis (eve_bases (self w)) ->
  Forall sent_basis (eve_bases (self (exec (transmit_all rounds) w))).
Proof.
  induction rounds as [|r rs IH]; intros w H.
  - exact H.
  - rewrite exec_transmit_all_cons. apply IH.
    unfold exec, send_round.
    destruct (send_bit_draws (r_bit r) (r_alice_basis r) (r_bob_basis r) w)
      as (x & eb & ebs & g' & -> & _ & _ & Hebs & _).
    cbn. apply Forall_app. auto.
Qed.

Lemma delayed_round_values i w o w' :
  delayed_round i w = (o, w') ->
  Forall is_bit (alice_bits (self w)) ->
  Forall bit_or_none (eve_bits (self w)) ->
  Forall bit_or_none (eve_bits (self w')).
Proof.
  rewrite delayed_round_run. intros Hrun Ha He. revert Hrun.
  destruct (eve_bits (self w) !! i) as [[b|]|];
    try (intros [= <- <-]; assumption).
  destruct (eve_bases (self w) !! i) as [[d|]|];
    try (intros [= <- <-]; assumption).
  destruct (alice_bases (self w) !! i) as [ab|];
    try (intros [= <- <-]; assumption).
  cbv zeta. destruct (alice_bits (self w) !! i) as [a|] eqn:E;
    intros [= <- <-]; cbn; [|assumption].
  apply Forall_insert; [assumption|]. cbn.
  eapply Forall_lookup_1; eauto.
Qed.

Lemma loop_values l : forall w o w',
  for_each l delayed_round w = (o, w') ->
  Forall is_bit (alice_bits (self w)) ->
  Forall bit_or_none (eve_bits (self w)) ->
  Forall bit_or_none (eve_bits (self w')).
Proof.
  induction l as [|i l IH]; intros w o w'.
  - intros [= <- <-]. auto.
  - cbn [for_each]. unfold bind.
    destruct (delayed_round i w) as [[[]|e] w1] eqn:E.
    + intros H Ha He. eapply IH; [exact H | |].
      * apply delayed_round_frame in E as (-> & _). exact Ha.
      * eapply delayed_round_values; eauto.
    + intros [= <- <-] Ha He. eapply delayed_round_values; eauto.
Qed.

(** X5.  If every bit given to [send_bit] is 0 or 1, then every entry of
    [bob_bits] and of [eve_bits] is [None], 0 or 1, and the entries of
    [eve_bits] still are after [eve_delayed_measurement], whether it returns
    or raises. *)
Theorem bits_stay_binary mean e g rounds :
  Forall (fun r => is_bit (r_bit r)) rounds ->
  let h := run mean e g rounds in
  let h1 := exec eve_delayed_measurement h in
  Forall bit_or_none (bob_bits (self h))
  /\ Forall bit_or_none (eve_bits (self h))
  /\ Forall bit_or_none (eve_bits (self h1)).
Proof.
  intros Hbits h h1.
  destruct (transmit_all_values rounds (start mean e g) Hbits) as [Hb He].
  fold (run mean e g rounds) in Hb, He. fold h in Hb, He.
  specialize (Hb (List.Forall_nil _)). specialize (He (List.Forall_nil _)).
  split; [exact Hb|]. split; [exact He|].
  subst h1. unfold exec, eve_delayed_measurement, bind, gets.
  destruct (for_each _ delayed_round h) as [o w'] eqn:E. cbn [snd].
  eapply loop_values; [exact E | | exact He].
  destruct (transmit_all_records rounds (start mean e g)) as (Ha & _).
  fold (run mean e g rounds) in Ha. fold h in Ha. rewrite Ha. cbn.
  apply List.Forall_map. exact Hbits.
Qed.

Lemma bits_stay_binary_witness :
  let h := run (1 # 10) true (tape [single_word; 1%N; 1%N; 1%N])
               [mkRound 0 "Z" "Z"] in
  Forall bit_or_none (bob_bits (self h))
  /\ Forall bit_or_none (eve_bits (self h))
  /\ Forall bit_or_none (eve_bits (self (exec eve_delayed_measurement h))).
Proof.
  intros h.
  apply (bits_stay_binary (1 # 10) true (tape [single_word; 1%N; 1%N; 1%N])
           [mkRound 0 "Z" "Z"]).
  repeat constructor.
Defined.

(** X6.  Before [eve_delayed_measurement] runs, every entry of [eve_bases]
    is [None], ['Z'] or ['X'], whatever bases the calls were given. *)
Theorem eve_bases_entries mean e g rounds :
  Forall sent_basis (eve_bases (self (run mean e g rounds))).
Proof. apply transmit_all_bases. constructor. Qed.

(** ** What the resolver leaves alone *)

Lemma eve_entries_only_refl s : eve_entries_only s s.
Proof. split; reflexivity. Qed.

Lemma eve_entries_only_trans s1 s2 s3 :
  eve_entries_only s1 s2 -> eve_entries_only s2 s3 -> eve_entries_only s1 s3.
Proof. intros [] []. split; congruence. Qed.

Lemma delayed_round_only_eve i w o w' :
  delayed_round i w = (o, w') ->
  eve_entries_only (self w) (self w') /\ gen w' = gen w.
Proof.
  rewrite delayed_round_run.
  destruct (eve_bits (self w) !! i) as [[b|]|];
    try (intros [= <- <-]; split; [apply eve_entries_only_refl | reflexivity]).
  destruct (eve_bases (self w) !! i) as [[d|]|];
    try (intros [= <- <-]; split; [apply eve_entries_only_refl | reflexivity]).
  destruct (alice_bases (self w) !! i) as [ab|];
    try (intros [= <- <-]; split; [apply eve_entries_only_refl | reflexivity]).
  cbv zeta. destruct (alice_bits (self w) !! i) as [a|]; intros [= <- <-];
    (split; [split; cbn; rewrite ?length_insert; reflexivity | reflexivity]).
Qed.

Lemma loop_only_eve l : forall w o w',
  for_each l delayed_round w = (o, w') ->
  eve_entries_only (self w) (self w') /\ gen w' = gen w.
Proof.
  induction l as [|i l IH]; intros w o w'.
  - intros [= <- <-]. split; [apply eve_entries_only_refl | reflexivity].
  - cbn [for_each]. unfold bind.
    destruct (delayed_round i w) as [[[]|e] w1] eqn:E.
    + intros H. apply IH in H as [H1 H2].
      apply delayed_round_only_eve in E as [E1 E2].
      split; [eapply eve_entries_only_trans; eauto | congruence].
    + intros [= <- <-]. eapply delayed_round_only_eve; eauto.
Qed.

(** X7.  From any state, whether it returns or raises,
    [eve_delayed_measurement] makes no draw and changes nothing but entries
    of [eve_bits] and [eve_bases]: the configuration, Alice's and Bob's four
    lists and the lengths of Eve's two lists stay as they were. *)
Theorem resolver_changes_only_eve_entries w :
  let w' := exec eve_delayed_measurement w in
  eve_entries_only (self w) (self w') /\ gen w' = gen w.
Proof.
  intros w'. subst w'. unfold exec, eve_delayed_measurement, bind, gets.
  destruct (for_each _ delayed_round w) as [o w'] eqn:E. cbn [snd].
  eapply loop_only_eve; eauto.
Qed.

Lemma delayed_round_keeps_set j w o w' i :
  delayed_round j w = (o, w') ->
  (forall b, eve_bits (self w) !! i = Some (Some b) ->
             eve_bits (self w') !! i = Some (Some b))
  /\ (forall d, eve_bases (self w) !! i = Some (Some d) ->
                eve_bases (self w') !! i = Some (Some d)).
Proof.
  rewrite delayed_round_run.
  destruct (eve_bits (self w) !! j) as [[b0|]|] eqn:E1;
    try (intros [= <- <-]; auto).
  destruct (eve_bases (self w) !! j) as [[d0|]|] eqn:E2;
    try (intros [= <- <-]; auto).
  destruct (alice_bases (self w) !! j) as [ab|];
    try (intros [= <- <-]; auto).
  assert (Hb : forall b, eve_bits (self w) !! i = Some (Some b) -> j <> i)
    by (intros b Hb ->; congruence).
  assert (Hd : forall d, eve_bases (self w) !! i = Some (Some d) -> j <> i)
    by (intros d Hd ->; congruence).
  cbv zeta. destruct (alice_bits (self w) !! j) as [a|]; intros [= <- <-];
    cbn; split; intros v Hv;
    rewrite ?list_lookup_insert_ne by eauto; exact Hv.
Qed.

Lemma loop_keeps_set l : forall w o w' i,
  for_each l delayed_round w = (o, w') ->
  (forall b, eve_bits (self w) !! i = Some (Some b) ->
             eve_bits (self w') !! i = Some (Some b))
  /\ (forall d, eve_bases (self w) !! i = Some (Some d) ->
                eve_bases (self w') !! i = Some (Some d)).
Proof.
  induction l as [|j l IH]; intros w o w' i.
  - intros [= <- <-]. auto.
  - cbn [for_each]. unfold bind.
    destruct (delayed_round j w) as [[[]|e] w1] eqn:E.
    + intros H. destruct (IH _ _ _ i H) as [H1 H2].
      destruct (delayed_round_keeps_set _ _ _ _ i E) as [E1 E2].
      split; eauto.
    + intros [= <- <-]. eapply delayed_round_keeps_set; eauto.
Qed.

(** X8.  [eve_delayed_measurement] never overwrites a value: from any
    state, an entry of [eve_bits] or of [eve_bases] that is not [None]
    before the call is the same after it, whether the call returns or
    raises. *)
Theorem resolver_keeps_set_entries w i :
  let w' := exec eve_delayed_measurement w in
  (forall b, eve_bits (self w) !! i = Some (Some b) ->
             eve_bits (self w') !! i = Some (Some b))
  /\ (forall d, eve_bases (self w) !! i = Some (Some d) ->
                eve_bases (self w') !! i = Some (Some d)).
Proof.
  intros w'. subst w'. unfold exec, eve_delayed_measurement, bind, gets.
  destruct (for_each _ delayed_round w) as [o w'] eqn:E. cbn [snd].
  eapply loop_keeps_set; eauto.
Qed.

Lemma resolver_keeps_set_entries_witness :
  let h := run (1 # 10) true (tape [single_word; 1%N; 1%N; 1%N])
               [mkRound 0 "Z" "Z"] in
  let h1 := exec eve_delayed_measurement h in
  eve_bits (self h1) !! 0%nat = Some (Some 1)
  /\ eve_bases (self h1) !! 0%nat = Some (Some "X").
Proof.
  intros h h1.
  destruct (resolver_keeps_set_entries h 0) as [Hb Hd].
  split; [apply Hb | apply Hd]; vm_compute; reflexivity.
Defined.

(** ** How long Eve's lists are *)

Lemma transmit_all_eve_bases_length rounds : forall w,
  (length (eve_bases (self (exec (transmit_all rounds) w)))
   + vacuum_count rounds w
   = length (eve_bases (self w)) + length rounds)%nat.
Proof.
  induction rounds as [|r rs IH]; intros w.
  - cbn. lia.
  - rewrite exec_transmit_all_cons. cbn [vacuum_count length].
    specialize (IH (exec (send_round r) w)).
    rewrite sampled_count.
    assert (Hstep :
      (length (eve_bases (self (exec (send_round r) w)))
       + (if (photon_of (current_word w) =? 0)%Z then 1 else 0)
       = S (length (eve_bases (self w))))%nat).
    { unfold exec, send_round.
      destruct (send_bit_run (r_bit r) (r_alice_basis r) (r_bob_basis r) w)
        as (x & eb & ebs & g' & -> & Happ).
      cbn. rewrite length_app.
      destruct (Z.eqb_spec (photon_of (current_word w)) 0) as [H0 | H0];
        inversion Happ; subst; cbn; try lia; congruence. }
    lia.
Qed.

(** X9.  After a run on a fresh object, [eve_bases] has one entry per round
    that was not a vacuum round.  [eve_bits] has one entry per round when
    interception is on, and is as long as [eve_bases] when it is off. *)
Theorem eve_list_lengths mean e g rounds :
  let s := self (run mean e g rounds) in
  (length (eve_bases s) + vacuum_count rounds (start mean e g)
   = length rounds)%nat
  /\ length (eve_bits s)
     = (if e then length rounds else length (eve_bases s)).
Proof.
  intros s. subst s. split.
  - apply (transmit_all_eve_bases_length rounds (start mean e g)).
  - pose proof (run_history mean e g rounds) as H.
    pose proof (run_intercept mean e g rounds) as He.
    fold (run mean e g rounds) in H, He.
    destruct e.
    + apply (h_eve_bits _ _ H He).
    + symmetry. apply (h_eve_quiet _ _ H He).
Qed.

(** ** When the resolver raises *)

Lemma delayed_round_exn i w e w' :
  delayed_round i w = (Raise e, w') -> e = IndexError.
Proof.
  rewrite delayed_round_run.
  destruct (eve_bits (self w) !! i) as [[b|]|]; try congruence.
  destruct (eve_bases (self w) !! i) as [[d|]|]; try congruence.
  destruct (alice_bases (self w) !! i) as [ab|]; try congruence.
  cbv zeta. destruct (alice_bits (self w) !! i) as [a|]; congruence.
Qed.

Lemma delayed_round_none_before j w o w' i :
  delayed_round j w = (o, w') ->
  eve_bits (self w') !! i = Some None -> eve_bits (self w) !! i = Some None.
Proof.
  rewrite delayed_round_run.
  destruct (eve_bits (self w) !! j) as [[b|]|] eqn:E1;
    try (intros [= <- <-]; auto).
  destruct (eve_bases (self w) !! j) as [[d|]|];
    try (intros [= <- <-]; auto).
  destruct (alice_bases (self w) !! j) as [ab|];
    try (intros [= <- <-]; auto).
  cbv zeta. destruct (alice_bits (self w) !! j) as [a|]; intros [= <- <-];
    cbn; [|auto].
  destruct (Nat.eq_dec j i) as [<- | Hne].
  - rewrite list_lookup_insert_eq by (eapply lookup_lt_Some; eauto).
    discriminate.
  - rewrite list_lookup_insert_ne by exact Hne. auto.
Qed.

(** The loop returns when every index it visits is within [eve_bits] and
    Alice's lists, and every [None] bit has a basis entry beside it. *)
Lemma loop_returns_guarded l : forall w,
  (forall i, In i l ->
     (i < length (eve_bits (self w)) /\ i < length (alice_bits (self w))
      /\ i < length (alice_bases (self w)))%nat) ->
  (forall i, eve_bits (self w) !! i = Some None ->
             (i < length (eve_bases (self w)))%nat) ->
  exists w', for_each l delayed_round w = (Return tt, w').
Proof.
  induction l as [|j l IH]; intros w Hin Hnone.
  - eexists. reflexivity.
  - cbn [for_each]. unfold bind.
    assert (exists w1, delayed_round j w = (Return tt, w1)) as [w1 E].
    { destruct (Hin j (or_introl eq_refl)) as (H1 & H2 & H3).
      rewrite delayed_round_run.
      apply lookup_lt_is_Some in H1 as [b Hb], H2 as [a Ha], H3 as [ab Hab].
      rewrite Hb. destruct b as [b|]; [eauto|].
      apply Hnone, lookup_lt_is_Some in Hb as [d ->].
      destruct d; [eauto|]. rewrite Hab. cbv zeta. rewrite Ha. eauto. }
    rewrite E. pose proof (delayed_round_frame _ _ _ _ E) as (Ea & Eab & Eb & Ed).
    apply IH.
    + intros i Hi. rewrite Ea, Eab, Eb. apply Hin. right. exact Hi.
    + intros i Hi. rewrite Ed. apply Hnone.
      eapply delayed_round_none_before; eauto.
Qed.

(** The loop raises [IndexError] when it visits an index whose bit is
    [None] and lies beyond [eve_bases]. *)
Lemma loop_raises l : forall w i,
  In i l ->
  eve_bits (self w) !! i = Some None ->
  (length (eve_bases (self w)) <= i)%nat ->
  exists w', for_each l delayed_round w = (Raise IndexError, w').
Proof.
  induction l as [|j l IH]; intros w i Hin Hb Hd.
  - destruct Hin.
  - cbn [for_each]. unfold bind.
    destruct (delayed_round j w) as [[[]|e] w1] eqn:E.
    + assert (Hne : i <> j).
      { intros ->. rewrite delayed_round_run, Hb in E.
        rewrite (lookup_ge_None_2 _ _ Hd) in E. discriminate. }
      destruct Hin as [-> | Hin]; [congruence|].
      pose proof (delayed_round_other i j w _ _ Hne E) as [Eb _].
      pose proof (delayed_round_frame _ _ _ _ E) as (_ & _ & _ & Ed).
      apply (IH w1 i Hin); [congruence | lia].
    + apply delayed_round_exn in E as He. subst e. eauto.
Qed.

Lemma loop_exn l : forall w e w',
  for_each l delayed_round w = (Raise e, w') -> e = IndexError.
Proof.
  induction l as [|j l IH]; intros w e w'.
  - discriminate.
  - cbn [for_each]. unfold bind.
    destruct (delayed_round j w) as [[[]|e0] w1] eqn:E.
    + apply IH.
    + intros [= <- <-]. eapply delayed_round_exn; eauto.
Qed.

(** X10.  On a history of [send_bit] calls, [eve_delayed_measurement]
    returns exactly when every [None] entry of [eve_bits] sits at an index
    that [eve_bases] has; otherwise it raises, and what it raises is
    [IndexError]. *)
Theorem resolver_returns_iff mean e g rounds :
  let h := run mean e g rounds in
  (result eve_delayed_measurement h = Return tt
   <-> forall i, eve_bits (self h) !! i = Some None ->
                 (i < length (eve_bases (self h)))%nat)
  /\ (result eve_delayed_measurement h = Return tt
      \/ result eve_delayed_measurement h = Raise IndexError).
Proof.
  intros h.
  pose proof (run_history mean e g rounds) as H.
  fold (run mean e g rounds) in H. fold h in H.
  pose proof (h_eve_bits_le _ _ H) as Hle.
  unfold result, eve_delayed_measurement, bind, gets.
  split; [split|].
  - intros Hret i Hi.
    destruct (le_lt_dec (length (eve_bases (self h))) i) as [Hge | Hlt];
      [|exact Hlt].
    destruct (loop_raises (seq 0 (length (eve_bits (self h)))) h i)
      as [w' E]; auto.
    + apply in_seq. apply lookup_lt_Some in Hi. lia.
    + rewrite E in Hret. discriminate.
  - intros Hnone.
    destruct (loop_returns_guarded (seq 0 (length (eve_bits (self h)))) h)
      as [w' ->]; auto.
    intros i Hi. apply in_seq in Hi.
    rewrite (h_alice_bits _ _ H), (h_alice_bases _ _ H). lia.
  - destruct (for_each _ delayed_round h) as [[[]|e0] w'] eqn:E; cbn [fst].
    + left. reflexivity.
    + right. apply loop_exn in E. subst e0. reflexivity.
Qed.

(** ** Runs without a vacuum round, both modes *)

(** X11.  In a run without a vacuum round, with interception on or off,
    [eve_delayed_measurement] returns, and round [i] is in one of two
    cases.  Either both of Eve's entries are [None] before the call and are
    Alice's bit and basis of round [i] after it; or both are set before the
    call and unchanged after it. *)
Theorem resolver_completes_without_vacuum mean e g rounds i r :
  no_vacuum rounds (start mean e g) ->
  rounds !! i = Some r ->
  let h := run mean e g rounds in
  let h1 := exec eve_delayed_measurement h in
  result eve_delayed_measurement h = Return tt
  /\ ((eve_bits (self h) !! i = Some None
       /\ eve_bases (self h) !! i = Some None
       /\ eve_bits (self h1) !! i = Some (Some (r_bit r))
       /\ eve_bases (self h1) !! i = Some (Some (r_alice_basis r)))
      \/ (exists b d,
            eve_bits (self h) !! i = Some (Some b)
            /\ eve_bases (self h) !! i = Some (Some d)
            /\ eve_bits (self h1) !! i = Some (Some b)
            /\ eve_bases (self h1) !! i = Some (Some d))).
Proof.
  intros Hnv Hr h h1.
  destruct (aligned_round_entry mean e g rounds i r Hnv Hr)
    as (x & y & z & Happ & _ & Hy & Hz & Ha & Hab).
  fold h in Hy, Hz, Ha, Hab.
  pose proof (run_aligned mean e g rounds Hnv) as [Hh Hb Hs].
  fold h in Hh, Hb, Hs.
  assert (Hret : result eve_delayed_measurement h = Return tt).
  { apply eve_delayed_measurement_returns;
      rewrite ?(h_alice_bits _ _ Hh), ?(h_alice_bases _ _ Hh); lia. }
  split; [exact Hret|].
  subst h1. unfold exec. unfold result in Hret.
  unfold eve_delayed_measurement, bind, gets in *.
  destruct (for_each _ delayed_round h) as [o w'] eqn:E.
  cbn [fst] in Hret. subst o. cbn [snd].
  assert (Hin : In i (seq 0 (length (eve_bits (self h))))).
  { apply in_seq. apply lookup_lt_Some in Hy. lia. }
  assert (Hcases : (y = None /\ z = None) \/ (exists b d, y = Some b /\ z = Some d)).
  { clear -Happ. inversion Happ; subst; eauto. }
  destruct Hcases as [[-> ->] | (b & d & -> & ->)].
  - left. split; [exact Hy|]. split; [exact Hz|].
    eapply loop_resolves; eauto.
    apply NoDup_ListNoDup, List.seq_NoDup.
  - right. exists b, d. split; [exact Hy|]. split; [exact Hz|].
    destruct (loop_keeps_set _ _ _ _ i E) as [Kb Kd]. auto.
Qed.

Lemma resolver_completes_without_vacuum_witness :
  let rounds := [mkRound 1 "Z" "X"] in
  let h := run (1 # 10) false (tape [single_word; 0%N]) rounds in
  let h1 := exec eve_delayed_measurement h in
  result eve_delayed_measurement h = Return tt
  /\ ((eve_bits (self h) !! 0%nat = Some None
       /\ eve_bases (self h) !! 0%nat = Some None
       /\ eve_bits (self h1) !! 0%nat = Some (Some 1)
       /\ eve_bases (self h1) !! 0%nat = Some (Some "Z"))
      \/ (exists b d,
            eve_bits (self h) !! 0%nat = Some (Some b)
            /\ eve_bases (self h) !! 0%nat = Some (Some d)
            /\ eve_bits (self h1) !! 0%nat = Some (Some b)
            /\ eve_bases (self h1) !! 0%nat = Some (Some d))).
Proof.
  intros rounds h h1.
  apply (resolver_completes_without_vacuum (1 # 10) false
           (tape [single_word; 0%N]) rounds 0 (mkRound 1 "Z" "X")).
  - intros i Hi. cbn in Hi. assert (i = 0%nat) as -> by lia.
    vm_compute. discriminate.
  - reflexivity.
Defined.

(** ** Interception off *)

Lemma transmit_all_quiet rounds : forall w,
  eve_intercept (self w) = false ->
  Forall (eq None) (eve_bits (self w)) ->
  Forall (eq None) (eve_bases (self w)) ->
  let s' := self (exec (transmit_all rounds) w) in
  Forall (eq None) (eve_bits s') /\ Forall (eq None) (eve_bases s').
Proof.
  induction rounds as [|r rs IH]; intros w He Hb Hd; cbn zeta.
  - auto.
  - rewrite exec_transmit_all_cons.
    assert (Hstep :
      eve_intercept (self (exec (send_round r) w)) = false
      /\ Forall (eq None) (eve_bits (self (exec (send_round r) w)))
      /\ Forall (eq None) (eve_bases (self (exec (send_round r) w)))).
    { unfold exec, send_round.
      destruct (send_bit_run (r_bit r) (r_alice_basis r) (r_bob_basis r) w)
        as (x & eb & ebs & g' & -> & Happ).
      cbn. rewrite He in Happ. split; [exact He|].
      inversion Happ; subst; try discriminate;
        split; apply Forall_app; split; auto. }
    destruct Hstep as (He1 & Hb1 & Hd1). apply IH; assumption.
Qed.

(** X12.  With interception off, every entry that [send_bit] calls write to
    [eve_bits] and [eve_bases] is [None]: until [eve_delayed_measurement]
    runs, Eve holds no bit and no basis. *)
Theorem quiet_run_leaves_eve_empty mean g rounds :
  let s := self (run mean false g rounds) in
  Forall (eq None) (eve_bits s) /\ Forall (eq None) (eve_bases s).
Proof.
  apply (transmit_all_quiet rounds (start mean false g)); constructor.
Qed.
